(** * shell-server: attach protocol, session framing and history replay

    A shallow embedding of [packages/shell-server/shell-server.js].

    The server is single-threaded and event-driven.  Every closure variable
    the JavaScript mutates ([socket], [timeout], [dataSoFar], [finished],
    [options.output], the listeners attached to the socket) becomes a field
    of an explicit state record, and every listener becomes a function from
    states to states.  Actions on the outside world ([socket.end],
    [console.error], [repl.start], ...) are appended to an effect log.

    A chunk read from the socket is a [string] of bytes.  The text that
    [buffer.toString("utf8")] makes of a chunk is represented by its UTF-8
    encoding, in which every ill-formed sequence of the chunk has become
    the replacement character U+FFFD (module [Buffer]).  The text of the
    history file is a [string] of code units in the Latin-1 range.

    The platform functions [JSON.parse] and [JSON.stringify] and the
    conversion of a value to a string are not part of the repository; the
    development is parametric in them (class [Builtins]), and a small
    executable instance for JSON data is supplied to run the model on
    concrete inputs.  The REPL module and the evaluator are collaborators
    as well: the model records when the server starts the one and submits
    code to the other, and takes their events as inputs. *)

From stdpp Require Import base strings list gmap sets pretty.
From Stdlib Require Import Ascii ZArith Lia.

Set Warnings "-register-all,-clear-no-such-hyp".
Set Default Proof Using "Type*".

#[local] Arguments String.append : simpl nomatch.


(* ===================================================================== *)
(** * Part I: definitions                                                 *)
(* ===================================================================== *)

(** ** Text: [split("\n")] and [join("\n")] *)

Module Text.

Definition LF : ascii := "010"%char.
Definition DQ : ascii := "034"%char.

(** The one-character string [\n]. *)
Definition nl : string := String LF EmptyString.

(** [quoted s] is [s] between two double-quote characters. *)
Definition quoted (s : string) : string :=
  String DQ (s +:+ String DQ EmptyString).

(** [s.split("\n")]: never empty; [n] separators give [n + 1] pieces. *)
Fixpoint split (s : string) : list string :=
  match s with
  | EmptyString => [EmptyString]
  | String c s' =>
      if Ascii.eqb c LF then EmptyString :: split s'
      else match split s' with
           | l :: ls => String c l :: ls
           | [] => [String c EmptyString]
           end
  end.

(** [lines.join("\n")]. *)
Fixpoint join (ls : list string) : string :=
  match ls with
  | [] => EmptyString
  | [l] => l
  | l :: ls' => l +:+ nl +:+ join ls'
  end.

(** [s] contains no newline. *)
Fixpoint no_newline (s : string) : bool :=
  match s with
  | EmptyString => true
  | String c s' => negb (Ascii.eqb c LF) && no_newline s'
  end.

Fixpoint concat (chunks : list string) : string :=
  match chunks with
  | [] => EmptyString
  | c :: cs => c +:+ concat cs
  end.

(** [header_ends_chunk n chunks]: some chunk ends exactly [n] characters
    into the stream, that is, a chunk boundary falls right behind a
    header of length [n]. *)
Fixpoint header_ends_chunk (n : nat) (chunks : list string) : bool :=
  match chunks with
  | [] => false
  | c :: cs =>
      let k := String.length c in
      if (k =? n)%nat then true
      else if (k <? n)%nat then header_ends_chunk (n - k) cs
      else false
  end.

(** [s] without its first character. *)
Definition after_first (s : string) : string :=
  match s with
  | EmptyString => EmptyString
  | String _ s' => s'
  end.

(** [header_chunks n chunks]: the chunks up to and including the one
    that reaches the end of a header of length [n]; these are the chunks
    that [onData] gets to see. *)
Fixpoint header_chunks (n : nat) (chunks : list string) : list string :=
  match chunks with
  | [] => []
  | c :: cs =>
      if (n <=? String.length c)%nat then [c]
      else c :: header_chunks (n - String.length c) cs
  end.

(** All proper prefixes of [s], shortest first ([s] itself excluded). *)
Fixpoint proper_prefixes (s : string) : list string :=
  match s with
  | EmptyString => []
  | String c s' => EmptyString :: map (String c) (proper_prefixes s')
  end.

(** JavaScript's [\s] on the Latin-1 range: TAB, LF, VT, FF, CR, space
    and the no-break space. *)
Definition is_space (c : ascii) : bool :=
  let n := nat_of_ascii c in
  ((9 <=? n)%nat && (n <=? 13)%nat) || (n =? 32)%nat || (n =? 160)%nat.

(** [/\S/.test(s)]: some character of [s] is not white space. *)
Fixpoint has_non_space (s : string) : bool :=
  match s with
  | EmptyString => false
  | String c s' => negb (is_space c) || has_non_space s'
  end.

End Text.

(** ** JavaScript values *)

Module JS.

(** Host objects that the server stores into the REPL options. *)
Inductive host_object :=
| TheSocket            (* the [net.Socket] of the connection *)
| ThePassThrough.      (* the [stream.PassThrough] made by readJSONFromStream *)

(** Values: JSON data, [undefined], [Error] objects and host objects.
    Numbers are restricted to integers.  An object is the list of its own
    properties in insertion order. *)
Inductive value :=
| Undefined
| Null
| Bool (b : bool)
| Num (n : Z)
| Str (s : string)
| Arr (xs : list value)
| Obj (props : list (string * value))
| ErrorObj (name message : string)
| Host (h : host_object).

Abbreviation object := (list (string * value)).

(** ToBoolean. *)
Definition truthy (v : value) : bool :=
  match v with
  | Undefined | Null => false
  | Bool b => b
  | Num n => negb (n =? 0)%Z
  | Str s => negb (String.eqb s EmptyString)
  | Arr _ | Obj _ | ErrorObj _ _ | Host _ => true
  end.

(** [o[k]] on an object without inherited property [k]: own property or
    [undefined]. *)
Fixpoint get (k : string) (o : object) : value :=
  match o with
  | [] => Undefined
  | (k', v) :: o' => if String.eqb k k' then v else get k o'
  end.

(** [k in o] for own properties. *)
Fixpoint has (k : string) (o : object) : bool :=
  match o with
  | [] => false
  | (k', _) :: o' => String.eqb k k' || has k o'
  end.

(** [o[k] = v]: an existing property keeps its place, a new one goes
    last. *)
Fixpoint set (k : string) (v : value) (o : object) : object :=
  match o with
  | [] => [(k, v)]
  | (k', v') :: o' =>
      if String.eqb k k' then (k', v) :: o' else (k', v') :: set k v o'
  end.

(** [delete o[k]]. *)
Fixpoint delete (k : string) (o : object) : object :=
  match o with
  | [] => []
  | (k', v') :: o' =>
      if String.eqb k k' then delete k o' else (k', v') :: delete k o'
  end.

(** Underscore's [_.extend(o, src)]: copy every property of [src]. *)
Definition extend (o src : object) : object :=
  fold_left (fun acc kv => set kv.1 kv.2 acc) src o.

(** Underscore's [_.defaults(o, src)]: fill in the properties of [src]
    whose value in [o] is [undefined]. *)
Definition defaults (o src : object) : object :=
  fold_left
    (fun acc kv =>
       match get kv.1 acc with
       | Undefined => set kv.1 kv.2 acc
       | _ => acc
       end)
    src o.

(** One property of [_.defaults]. *)
Definition default1 (k : string) (d : value) (o : object) : object :=
  match get k o with
  | Undefined => set k d o
  | _ => o
  end.

(** Reading a property named [k] off an arbitrary value, for names that
    no built-in prototype defines (the program reads [key], [columns],
    [evaluateAndExit], [command], [filename]): [None] is the TypeError
    of reading a property of [null] or [undefined]. *)
Definition get_prop (v : value) (k : string) : option value :=
  match v with
  | Undefined | Null => None
  | Obj o => Some (get k o)
  | _ => Some Undefined
  end.

(** [v !== s] for a string [s]. *)
Definition strict_eq_string (v : value) (s : string) : bool :=
  match v with
  | Str s' => String.eqb s' s
  | _ => false
  end.

(** Result of [JSON.parse]: a value, a [SyntaxError], or another
    exception. *)
Inductive parse_result :=
| Parsed (v : value)
| SyntaxError
| OtherError (e : value).

(** The platform functions the server calls. *)
Class Builtins := {
  JSON_parse : string -> parse_result;
  JSON_stringify : value -> string;
  ToString : value -> string      (* [v + s] for the empty string [s] *)
}.

End JS.

(** ** An executable instance of the platform functions

    [parse] agrees with [JSON.parse] on texts made of objects, arrays,
    strings without escape sequences, integer literals, [true], [false],
    [null] and white space, and reports a syntax error on every other text;
    [stringify] and [to_string] follow [JSON.stringify] and the string
    conversion on the values such texts denote and on [Error] objects.  The
    instance only serves to run the model on concrete inputs. *)

Module JSONData.
Import Text JS.

Definition is_ws (c : ascii) : bool :=
  let n := nat_of_ascii c in
  (n =? 32)%nat || (n =? 9)%nat || (n =? 10)%nat || (n =? 13)%nat.

Fixpoint skip_ws (s : string) : string :=
  match s with
  | String c s' => if is_ws c then skip_ws s' else s
  | EmptyString => s
  end.

Definition is_digit (c : ascii) : bool :=
  let n := nat_of_ascii c in (48 <=? n)%nat && (n <=? 57)%nat.

Definition digit_value (c : ascii) : Z := Z.of_nat (nat_of_ascii c) - 48.

(** [expect w s]: [s] with the word [w] removed from its front. *)
Fixpoint expect (w s : string) : option string :=
  match w, s with
  | EmptyString, _ => Some s
  | String a w', String b s' => if Ascii.eqb a b then expect w' s' else None
  | String _ _, EmptyString => None
  end.

(** Characters up to the closing quote; escapes and control characters
    are outside the fragment. *)
Fixpoint string_body (s : string) : option (string * string) :=
  match s with
  | EmptyString => None
  | String c s' =>
      if Ascii.eqb c DQ then Some (EmptyString, s')
      else if Ascii.eqb c "092"%char then None
      else if (nat_of_ascii c <? 32)%nat then None
      else match string_body s' with
           | Some (body, rest) => Some (String c body, rest)
           | None => None
           end
  end.

Fixpoint digits (acc : Z) (s : string) : Z * string :=
  match s with
  | String c s' =>
      if is_digit c then digits (10 * acc + digit_value c) s' else (acc, s)
  | EmptyString => (acc, s)
  end.

(** An integer literal: no leading zero, no fraction, no exponent. *)
Definition natural (s : string) : option (Z * string) :=
  match s with
  | String c s' =>
      if Ascii.eqb c "0"%char then
        match s' with
        | String d _ =>
            if is_digit d || Ascii.eqb d "."%char || Ascii.eqb d "e"%char
               || Ascii.eqb d "E"%char
            then None else Some (0%Z, s')
        | EmptyString => Some (0%Z, s')
        end
      else if is_digit c then
        let '(n, rest) := digits (digit_value c) s' in
        match rest with
        | String d _ =>
            if Ascii.eqb d "."%char || Ascii.eqb d "e"%char
               || Ascii.eqb d "E"%char
            then None else Some (n, rest)
        | EmptyString => Some (n, rest)
        end
      else None
  | EmptyString => None
  end.

Fixpoint parse_value (fuel : nat) (s : string) : option (value * string) :=
  match fuel with
  | O => None
  | S fuel' =>
      match skip_ws s with
      | EmptyString => None
      | String c rest =>
          if Ascii.eqb c "n"%char then
            rest' ← expect "ull" rest; Some (Null, rest')
          else if Ascii.eqb c "t"%char then
            rest' ← expect "rue" rest; Some (Bool true, rest')
          else if Ascii.eqb c "f"%char then
            rest' ← expect "alse" rest; Some (Bool false, rest')
          else if Ascii.eqb c DQ then
            '(body, rest') ← string_body rest; Some (Str body, rest')
          else if Ascii.eqb c "-"%char then
            '(n, rest') ← natural rest; Some (Num (- n), rest')
          else if is_digit c then
            '(n, rest') ← natural (String c rest); Some (Num n, rest')
          else if Ascii.eqb c "["%char then
            match skip_ws rest with
            | String d rest' =>
                if Ascii.eqb d "]"%char then Some (Arr [], rest')
                else parse_items fuel' rest []
            | EmptyString => None
            end
          else if Ascii.eqb c "{"%char then
            match skip_ws rest with
            | String d rest' =>
                if Ascii.eqb d "}"%char then Some (Obj [], rest')
                else parse_members fuel' rest []
            | EmptyString => None
            end
          else None
      end
  end
with parse_items (fuel : nat) (s : string) (acc : list value)
  : option (value * string) :=
  match fuel with
  | O => None
  | S fuel' =>
      '(v, rest) ← parse_value fuel' s;
      match skip_ws rest with
      | String d rest' =>
          if Ascii.eqb d ","%char then parse_items fuel' rest' (acc ++ [v])
          else if Ascii.eqb d "]"%char then Some (Arr (acc ++ [v]), rest')
          else None
      | EmptyString => None
      end
  end
with parse_members (fuel : nat) (s : string) (acc : object)
  : option (value * string) :=
  match fuel with
  | O => None
  | S fuel' =>
      match skip_ws s with
      | String q rest0 =>
          if Ascii.eqb q DQ then
            '(k, rest1) ← string_body rest0;
            match skip_ws rest1 with
            | String colon rest2 =>
                if Ascii.eqb colon ":"%char then
                  '(v, rest) ← parse_value fuel' rest2;
                  match skip_ws rest with
                  | String d rest' =>
                      if Ascii.eqb d ","%char
                      then parse_members fuel' rest' (set k v acc)
                      else if Ascii.eqb d "}"%char
                      then Some (Obj (set k v acc), rest')
                      else None
                  | EmptyString => None
                  end
                else None
            | EmptyString => None
            end
          else None
      | EmptyString => None
      end
  end.

Definition parse (s : string) : parse_result :=
  match parse_value (S (String.length s)) s with
  | Some (v, rest) =>
      match skip_ws rest with
      | EmptyString => Parsed v
      | String _ _ => SyntaxError
      end
  | None => SyntaxError
  end.

(** A string between quotes, with quote and backslash escaped. *)
Fixpoint escape (s : string) : string :=
  match s with
  | EmptyString => EmptyString
  | String c s' =>
      if Ascii.eqb c DQ || Ascii.eqb c "092"%char
      then String "092"%char (String c (escape s'))
      else String c (escape s')
  end.

Definition comma_separated (parts : list string) : string :=
  match parts with
  | [] => EmptyString
  | p :: ps => fold_left (fun acc q => acc +:+ "," +:+ q) ps p
  end.

(** [None] stands for [undefined], which [JSON.stringify] returns for
    [undefined]; an object drops such properties and an array prints
    them as [null]. *)
Fixpoint stringify_opt (v : value) : option string :=
  match v with
  | Undefined => None
  | Null => Some "null"
  | Bool true => Some "true"
  | Bool false => Some "false"
  | Num n => Some (pretty n)
  | Str s => Some (quoted (escape s))
  | Arr xs =>
      Some ("[" +:+ comma_separated
              (map (fun x => default "null" (stringify_opt x)) xs) +:+ "]")
  | Obj o =>
      Some ("{" +:+ comma_separated
              (omap (fun kv =>
                       match stringify_opt kv.2 with
                       | Some t => Some (quoted (escape kv.1) +:+ ":" +:+ t)
                       | None => None
                       end) o) +:+ "}")
  | ErrorObj _ _ => Some "{}"
  | Host _ => Some "{}"
  end.

Definition stringify (v : value) : string :=
  default "undefined" (stringify_opt v).

Definition to_string (v : value) : string :=
  match v with
  | Undefined => "undefined"
  | Null => "null"
  | Bool true => "true"
  | Bool false => "false"
  | Num n => pretty n
  | Str s => s
  | ErrorObj name message =>
      match message with
      | EmptyString => name
      | String _ _ => name +:+ ": " +:+ message
      end
  | Arr _ | Obj _ | Host _ => "[object Object]"
  end.

Definition builtins : Builtins :=
  {| JSON_parse := parse; JSON_stringify := stringify;
     ToString := to_string |}.

End JSONData.

(** ** [buffer.toString("utf8")] *)

Module Buffer.

(** A JavaScript string is represented by its UTF-8 encoding.  Writing
    a string into a stream is then the identity, and [split], [join] and
    concatenation are those of the bytes: in well-formed UTF-8 the byte
    0A occurs as the character LF only. *)

(** U+FFFD in UTF-8: EF BF BD. *)
Definition REPLACEMENT : string :=
  String "239"%char (String "191"%char (String "189"%char EmptyString)).

(** The decoder between two bytes: at the start of a character, or
    inside one, of which [sequence] has been read and [needed] bytes,
    the next one between [lower] and [upper], are still to come. *)
Inductive state :=
| Idle
| Within (sequence : string) (needed lower upper : nat).

Definition between (lower upper : nat) (b : ascii) : bool :=
  (lower <=? nat_of_ascii b)%nat && (nat_of_ascii b <=? upper)%nat.

(** A byte at the start of a character: 00-7F is a character; C2-DF,
    E0-EF and F0-F4 begin one of two, three and four bytes; E0 and F0
    exclude the overlong forms, ED the surrogates and F4 what lies
    beyond U+10FFFF.  Any other byte is ill-formed. *)
Definition first_byte (b : ascii) : string * state :=
  let n := nat_of_ascii b in
  if between 0 127 b then (String b EmptyString, Idle)
  else if between 194 223 b
  then (EmptyString, Within (String b EmptyString) 1 128 191)
  else if between 224 239 b
  then (EmptyString,
        Within (String b EmptyString) 2
          (if (n =? 224)%nat then 160 else 128)%nat
          (if (n =? 237)%nat then 159 else 191)%nat)
  else if between 240 244 b
  then (EmptyString,
        Within (String b EmptyString) 3
          (if (n =? 240)%nat then 144 else 128)%nat
          (if (n =? 244)%nat then 143 else 191)%nat)
  else (REPLACEMENT, Idle).

(** One byte.  A byte that cannot continue the character replaces what
    has been read of it by U+FFFD and is read again as a first byte. *)
Definition step (st : state) (b : ascii) : string * state :=
  match st with
  | Idle => first_byte b
  | Within sequence needed lower upper =>
      if between lower upper b
      then match needed with
           | S (S n) =>
               (EmptyString,
                Within (sequence +:+ String b EmptyString) (S n) 128 191)
           | _ => (sequence +:+ String b EmptyString, Idle)
           end
      else (REPLACEMENT +:+ (first_byte b).1, (first_byte b).2)
  end.

(** The bytes to the end; a character cut by the end is replaced. *)
Fixpoint decode (st : state) (bytes : string) : string :=
  match bytes with
  | EmptyString =>
      match st with
      | Idle => EmptyString
      | Within _ _ _ _ => REPLACEMENT
      end
  | String b bytes' => (step st b).1 +:+ decode (step st b).2 bytes'
  end.

(** [buffer.toString("utf8")]. *)
Definition toString (buffer : string) : string := decode Idle buffer.

(** Every byte is below 80. *)
Fixpoint ascii_only (s : string) : bool :=
  match s with
  | EmptyString => true
  | String b s' => between 0 127 b && ascii_only s'
  end.

End Buffer.

(** ** readJSONFromStream *)

Module FrameReader.
Import Text JS.

(** Arguments of [callback(error, json, outputStream)]; [outputStream] is
    always the reader's pass-through stream. *)
Record callback_args := CallbackArgs {
  cb_error : value;
  cb_json : value
}.

(** Closure state of one call of [readJSONFromStream]. *)
Record reader := Reader {
  dataSoFar : string;
  finished : bool;
  data_listener : bool;    (* [onData] attached to "data" *)
  error_listener : bool;   (* [finish] attached to "error" *)
  close_listener : bool;   (* [onClose] attached to "close" *)
  piped : bool;            (* [inputStream.pipe(outputStream)] in effect *)
  passthrough : string;    (* the bytes written into [outputStream] *)
  detached : nat           (* times [finish] has removed the listeners *)
}.

(** State after [readJSONFromStream(inputStream, callback)] returns. *)
Definition start : reader :=
  {| dataSoFar := EmptyString; finished := false;
     data_listener := true; error_listener := true; close_listener := true;
     piped := false; passthrough := EmptyString; detached := 0%nat |}.

(** [finish(error, json)]. *)
Definition finish (error json : value) (r : reader)
  : reader * option callback_args :=
  if finished r then (r, None)
  else
    ({| dataSoFar := dataSoFar r; finished := true;
        data_listener := false; error_listener := false;
        close_listener := false;
        piped := piped r; passthrough := passthrough r;
        detached := S (detached r) |},
     Some (CallbackArgs error json)).

Definition set_dataSoFar (d : string) (r : reader) : reader :=
  {| dataSoFar := d; finished := finished r;
     data_listener := data_listener r; error_listener := error_listener r;
     close_listener := close_listener r;
     piped := piped r; passthrough := passthrough r;
     detached := detached r |}.

(** [outputStream.write(s)]. *)
Definition write (s : string) (r : reader) : reader :=
  {| dataSoFar := dataSoFar r; finished := finished r;
     data_listener := data_listener r; error_listener := error_listener r;
     close_listener := close_listener r;
     piped := piped r; passthrough := passthrough r +:+ s;
     detached := detached r |}.

(** [inputStream.pipe(outputStream)]. *)
Definition pipe (r : reader) : reader :=
  {| dataSoFar := dataSoFar r; finished := finished r;
     data_listener := data_listener r; error_listener := error_listener r;
     close_listener := close_listener r;
     piped := true; passthrough := passthrough r;
     detached := detached r |}.

(** [socket.removeAllListeners("data")], as seen by the reader: both
    [onData] and the pipe's forwarding listener listen to "data". *)
Definition remove_data_listeners (r : reader) : reader :=
  {| dataSoFar := dataSoFar r; finished := finished r;
     data_listener := false; error_listener := error_listener r;
     close_listener := close_listener r;
     piped := false; passthrough := passthrough r;
     detached := detached r |}.

Section WithBuiltins.
Context `{Builtins}.

(** The [while (lines.length > 0)] loop of [onData]. *)
Fixpoint onData_loop (lines : list string) (r : reader)
  : reader * option callback_args :=
  match lines with
  | [] => (r, None)
  | line :: lines' =>
      let r1 := set_dataSoFar (dataSoFar r +:+ line) r in
      match JSON_parse (dataSoFar r1) with
      | SyntaxError => onData_loop lines' r1
      | OtherError e => finish e Undefined r1
      | Parsed json =>
          let r2 := match lines' with
                    | [] => r1
                    | _ :: _ => write (join lines') r1
                    end in
          finish Null json (pipe r2)
      end
  end.

(** [onData(buffer)]: the chunk is decoded on its own. *)
Definition onData (buffer : string) (r : reader)
  : reader * option callback_args :=
  onData_loop (split (Buffer.toString buffer)) r.

(** [onClose()]. *)
Definition onClose (r : reader) : reader * option callback_args :=
  finish (ErrorObj "Error" "stream unexpectedly closed") Undefined r.

(** Events of the source stream. *)
Inductive stream_event :=
| Data (chunk : string)
| StreamError (e : value)
| Close.

(** Delivery of one event to the listeners attached to the source stream,
    in the order they were attached: [onData] first, then the pipe.  A
    "data" event reaches the pipe only if the pipe was in place before the
    event was emitted. *)
Definition deliver (ev : stream_event) (r : reader)
  : reader * option callback_args :=
  match ev with
  | Data chunk =>
      let res := if data_listener r then onData chunk r else (r, None) in
      (if piped r then write chunk res.1 else res.1, res.2)
  | StreamError e =>
      if error_listener r then finish e Undefined r else (r, None)
  | Close =>
      if close_listener r then onClose r else (r, None)
  end.

(** A whole run; the list collects the callback invocations in order. *)
Fixpoint run (evs : list stream_event) (r : reader)
  : reader * list callback_args :=
  match evs with
  | [] => (r, [])
  | ev :: evs' =>
      let '(r1, c) := deliver ev r in
      let '(r2, cs) := run evs' r1 in
      (r2, match c with Some a => a :: cs | None => cs end)
  end.

(** Feeding a list of chunks to a fresh reader. *)
Definition feed (chunks : list string) : reader * list callback_args :=
  run (map Data chunks) start.

End WithBuiltins.

(** Nothing has completed yet: the guard is open and the listeners that
    can complete the reader are attached. *)
Definition waiting (r : reader) : Prop :=
  finished r = false ∧ error_listener r = true ∧ close_listener r = true
  ∧ detached r = 0%nat.

(** The reader has completed: the guard is shut and the three listeners
    are gone, removed once. *)
Definition completed (r : reader) : Prop :=
  finished r = true ∧ data_listener r = false ∧ error_listener r = false
  ∧ close_listener r = false ∧ detached r = 1%nat.

(** The outcome of delivering something to a reader. *)
Definition outcome_ok (r : reader) (res : reader * option callback_args)
  : Prop :=
  (waiting r →
   (res.2 = None ∧ waiting res.1) ∨ (is_Some res.2 ∧ completed res.1))
  ∧ (completed r → res.2 = None ∧ completed res.1).

(** The reader while it accumulates the header, and after it has
    handed the stream over to the pipe. *)
Definition accumulating (d : string) : reader :=
  Reader d false true true true false EmptyString 0.

Definition piping (d out : string) : reader :=
  Reader d true false false false true out 1.

End FrameReader.

(** ** Server.onConnection and the session *)

Module Connection.
Import Text JS FrameReader.

Definition EXITING_MESSAGE : string := "Shell exiting...".

(** What the server does to the outside world, in the order it does it. *)
Inductive effect :=
| ClearTimeout                       (* [clearTimeout(timeout)] *)
| RemoveAllDataListeners             (* [socket.removeAllListeners("data")] *)
| SocketWrite (data : string)        (* [options.output.write(data)] *)
| SocketEnd (data : option string)   (* [socket.end(data)], [output.end()] *)
| ConsoleError (e : value)           (* [console.error(error.stack)] *)
| SetColumns (columns : value)       (* [socket.columns = options.columns] *)
| StartREPL (options : object)       (* [moduleRepl.start(options)] *)
| SubmitEval (command file : value)  (* [self._wrappedDefaultEval.call(...)] *)
| EnableInteractiveMode              (* [self.enableInteractiveMode(options)] *)
| UncaughtTypeError.                 (* a TypeError leaves the listener *)

Inductive session_mode :=
| NoSession       (* [startREPL] has not been called *)
| OneShot         (* [evaluateAndExit]: one evaluation submitted *)
| Interactive.    (* [enableInteractiveMode] has run *)

(** State of one accepted connection. *)
Record conn := Conn {
  socket : bool;          (* [socket] of onConnection is not null *)
  timeout : bool;         (* the 1000 ms timer is pending *)
  frame : reader;         (* closure state of readJSONFromStream *)
  session : session_mode;
  output : bool;          (* [options.output] is not null *)
  effects : list effect
}.

Definition set_socket (b : bool) (c : conn) : conn :=
  Conn b (timeout c) (frame c) (session c) (output c) (effects c).
Definition set_timeout (b : bool) (c : conn) : conn :=
  Conn (socket c) b (frame c) (session c) (output c) (effects c).
Definition set_frame (r : reader) (c : conn) : conn :=
  Conn (socket c) (timeout c) r (session c) (output c) (effects c).
Definition set_session (m : session_mode) (c : conn) : conn :=
  Conn (socket c) (timeout c) (frame c) m (output c) (effects c).
Definition set_output (b : bool) (c : conn) : conn :=
  Conn (socket c) (timeout c) (frame c) (session c) b (effects c).
Definition log (e : effect) (c : conn) : conn :=
  Conn (socket c) (timeout c) (frame c) (session c) (output c)
       (effects c ++ [e]).

(** State when [onConnection(socket)] returns: the close listener of
    line 94, the timer and the frame reader are in place. *)
Definition accepted : conn :=
  Conn true true FrameReader.start NoSession false [].

(** Lines 126-147: [key] and [columns] deleted, the immutable options
    imposed, the overridable ones defaulted. *)
Definition negotiate (socket_open : bool) (options : object) : object :=
  let o1 := delete "columns" (delete "key" options) in
  let o2 := extend o1
              [("input", Host ThePassThrough);
               ("useGlobal", Bool false);
               ("output", if socket_open then Host TheSocket else Null)] in
  defaults o2
    [("prompt", Str "> ");
     ("terminal", Bool true);
     ("useColors", Bool true);
     ("ignoreUndefined", Bool true)].

(** Lines 152-154: a blank prompt for [evaluateAndExit]. *)
Definition blank_prompt (options : object) : object :=
  if truthy (get "evaluateAndExit" options)
  then set "prompt" (Str EmptyString) options
  else options.

(** The options object handed to [startREPL]. *)
Definition repl_options (socket_open : bool) (options : object) : object :=
  blank_prompt (negotiate socket_open options).

(** [options.evaluateAndExit.filename || "<meteor shell>"]. *)
Definition eval_filename (evaluateAndExit : value) : value :=
  match get_prop evaluateAndExit "filename" with
  | Some f => if truthy f then f else Str "<meteor shell>"
  | None => Str "<meteor shell>"
  end.

Definition eval_command (evaluateAndExit : value) : value :=
  default Undefined (get_prop evaluateAndExit "command").

Section WithServer.
Context `{Builtins}.

(** [self.key]. *)
Variable key : string.

(** Lines 120-125, key mismatch. *)
Definition reject (c : conn) : conn :=
  if socket c
  then log (SocketEnd (Some (EXITING_MESSAGE +:+ nl))) c
  else c.

(** Lines 126-184, key accepted.  [startREPL] reads
    [options.output.on], a TypeError when [output] is null. *)
Definition accept (options : object) (c : conn) : conn :=
  let c1 := if truthy (get "columns" options) && socket c
            then log (SetColumns (get "columns" options)) c
            else c in
  let opts := repl_options (socket c1) options in
  if negb (socket c1) then log UncaughtTypeError c1
  else
    let c2 := log (StartREPL opts) (set_output true c1) in
    let e := get "evaluateAndExit" opts in
    if truthy e
    then log (SubmitEval (eval_command e) (eval_filename e))
             (set_session OneShot c2)
    else log EnableInteractiveMode (set_session Interactive c2).

(** The callback given to readJSONFromStream (lines 111-185). *)
Definition onHandshake (a : callback_args) (c : conn) : conn :=
  let c0 := log ClearTimeout (set_timeout false c) in
  if truthy (cb_error a)
  then log (ConsoleError (cb_error a)) (set_socket false c0)
  else
    match cb_json a with
    | Undefined | Null => log UncaughtTypeError c0
    | Obj options =>
        if strict_eq_string (get "key" options) key
        then accept options c0
        else reject c0
    | _ => reject c0
    end.

(** The completion callback of the one-shot evaluation
    (lines 165-178). *)
Definition oneshot_message (error result : value) : value :=
  if truthy error
  then Obj [("error", Str (ToString error)); ("code", Num 1)]
  else Obj [("result", result)].

Definition onEvalDone (error result : value) (c : conn) : conn :=
  if socket c
  then log (SocketEnd
              (Some (JSON_stringify (oneshot_message error result)
                     +:+ nl))) c
  else c.

(** [repl.on("exit", ...)] of enableInteractiveMode (lines 274-279). *)
Definition onReplExit (c : conn) : conn :=
  if output c
  then log (SocketEnd None)
           (log (SocketWrite (EXITING_MESSAGE +:+ nl)) c)
  else c.

(** [process.on("exit", ...)] of enableInteractiveMode
    (lines 283-287). *)
Definition onProcessExit (c : conn) : conn :=
  if output c then log (SocketEnd None) c else c.

(** The timer callback (lines 100-105). *)
Definition onTimeout (c : conn) : conn :=
  if socket c
  then log (SocketEnd (Some (EXITING_MESSAGE +:+ nl)))
           (log RemoveAllDataListeners
                (set_frame (remove_data_listeners (frame c)) c))
  else c.

Inductive event :=
| Stream (ev : stream_event)        (* "data", "error", "close" of the socket *)
| TimerFires                        (* 1000 ms have passed *)
| EvalDone (error result : value)   (* the evaluator calls back *)
| ReplExit                          (* the REPL emits "exit" *)
| ProcessExit.                      (* the process emits "exit" *)

(** The frame reader's listeners, followed by the handshake callback
    when the reader finishes. *)
Definition to_reader (ev : stream_event) (c : conn) : conn :=
  let '(r, cb) := deliver ev (frame c) in
  let c1 := set_frame r c in
  match cb with
  | Some a => onHandshake a c1
  | None => c1
  end.

(** One turn of the event loop.  A "close" runs the listeners in the
    order they were attached: line 94, the reader's [onClose], and the
    one [startREPL] attached to [options.output]. *)
Definition step (ev : event) (c : conn) : conn :=
  match ev with
  | Stream Close =>
      let started := match session c with
                     | NoSession => false
                     | _ => true
                     end in
      let c1 := to_reader Close (set_socket false c) in
      if started then set_output false c1 else c1
  | Stream ev' => to_reader ev' c
  | TimerFires =>
      if timeout c then onTimeout (set_timeout false c) else c
  | EvalDone error result =>
      match session c with
      | OneShot => onEvalDone error result c
      | _ => c
      end
  | ReplExit =>
      match session c with
      | Interactive => onReplExit c
      | _ => c
      end
  | ProcessExit =>
      match session c with
      | Interactive => onProcessExit c
      | _ => c
      end
  end.

Definition run (evs : list event) (c : conn) : conn :=
  fold_left (fun c ev => step ev c) evs c.

End WithServer.

Definition banner : effect := SocketEnd (Some (EXITING_MESSAGE +:+ nl)).

(** The three phases of a connection. *)

(** Waiting for the handshake: timer pending, nothing done yet. *)
Definition handshaking (c : conn) : Prop :=
  ∃ d, c = Conn true true (accumulating d) NoSession false [].

(** The timer has fired: the data listener is gone, the reader still
    waits for "error" or "close". *)
Definition timed_out (c : conn) : Prop :=
  ∃ d, c = Conn true false
             (Reader d false false true true false EmptyString 0)
             NoSession false [RemoveAllDataListeners; banner].

(** The reader has completed and the handshake callback has run. *)
Definition settled (c : conn) : Prop :=
  timeout c = false ∧ completed (frame c).

Definition inv (c : conn) : Prop :=
  handshaking c ∨ timed_out c ∨ settled c.

Definition is_close (ev : event) : bool :=
  match ev with Stream Close => true | _ => false end.

Definition is_eval_done (ev : event) : bool :=
  match ev with EvalDone _ _ => true | _ => false end.

(** The options with which a REPL was started. *)
Definition repl_starts (es : list effect) : list object :=
  omap (λ e, match e with StartREPL o => Some o | _ => None end) es.

(** The evaluations the server submitted. *)
Definition evaluations (es : list effect) : list (value * value) :=
  omap (λ e, match e with SubmitEval c f => Some (c, f) | _ => None end) es.

(** The texts sent to the client. *)
Definition written (es : list effect) : list string :=
  omap (λ e, match e with
             | SocketWrite data => Some data
             | SocketEnd (Some data) => Some data
             | _ => None
             end) es.

(** [socket.columns = options.columns], when the client asked for it. *)
Definition columns_effect (options : object) : list effect :=
  if truthy (get "columns" options)
  then [SetColumns (get "columns" options)]
  else [].

End Connection.

(** ** The evaluation pipeline: evalCommandPromise and wrappedDefaultEval

    [evalCommandPromise] is one promise, resolved when the module is
    loaded and never reassigned.  Every call of [wrappedDefaultEval] hangs
    a [then] reaction on it, followed by a [catch] reaction on the promise
    that [then] returns.  The model keeps the job queue of the promise
    machinery (the microtasks) and the observable trace: when the
    underlying evaluator [defaultEval] is entered and when the completion
    callback of a request fires.  The call of [compileForShell] before the
    promise is used only rewrites the code and is left out. *)

Module EvalPipeline.

(** What [defaultEval(code, context, file, callback)] does with its
    callback; the evaluator is not part of the repository. *)
Inductive eval_behaviour :=
| CallsBack     (* calls [callback] before it returns *)
| Suspends      (* returns first; [callback] is called in a later turn *)
| Throws.       (* throws without having called [callback] *)

Record request := Request {
  rid : nat;
  behaviour : eval_behaviour
}.

(** Promise reaction jobs. *)
Inductive job :=
| ThenJob (r : request)     (* [() => defaultEval(..., callback)] *)
| CatchJob (r : request).   (* [callback], as the rejection handler *)

Inductive observation :=
| Begin (id : nat)          (* [defaultEval] is entered for the request *)
| Done (id : nat).          (* the request's [callback] fires *)

Record loop := Loop {
  microtasks : list job;
  suspended : list nat;     (* evaluators that returned and will call back *)
  trace : list observation
}.

Definition idle : loop := Loop [] [] [].

(** [wrappedDefaultEval(code, context, file, callback)]: the promise is
    already fulfilled, so [then] queues its reaction at once. *)
Definition wrappedDefaultEval (r : request) (l : loop) : loop :=
  Loop (microtasks l ++ [ThenJob r]) (suspended l) (trace l).

(** Running one reaction job.  A throwing evaluator rejects the promise
    returned by [then], which queues the [catch] reaction behind the
    jobs already waiting. *)
Definition run_job (j : job) (l : loop) : loop :=
  match j with
  | ThenJob r =>
      match behaviour r with
      | CallsBack =>
          Loop (microtasks l) (suspended l)
               (trace l ++ [Begin (rid r); Done (rid r)])
      | Suspends =>
          Loop (microtasks l) (suspended l ++ [rid r])
               (trace l ++ [Begin (rid r)])
      | Throws =>
          Loop (microtasks l ++ [CatchJob r]) (suspended l)
               (trace l ++ [Begin (rid r)])
      end
  | CatchJob r =>
      Loop (microtasks l) (suspended l) (trace l ++ [Done (rid r)])
  end.

(** The microtask checkpoint at the end of a turn: jobs run first-in
    first-out until the queue is empty. *)
Fixpoint drain (fuel : nat) (l : loop) : loop :=
  match fuel with
  | O => l
  | S fuel' =>
      match microtasks l with
      | [] => l
      | j :: js => drain fuel' (run_job j (Loop js (suspended l) (trace l)))
      end
  end.

(** A [then] job can queue one more job, a [catch] job none. *)
Definition weight (j : job) : nat :=
  match j with ThenJob _ => 2 | CatchJob _ => 1 end.

Definition total_weight (js : list job) : nat :=
  foldr (λ j n, weight j + n)%nat 0%nat js.

Definition checkpoint (l : loop) : loop :=
  drain (total_weight (microtasks l)) l.

(** A turn of the event loop. *)
Inductive turn :=
| Submit (rs : list request)   (* requests handed to [wrappedDefaultEval] *)
| Resume (id : nat).           (* a suspended evaluator calls back *)

Definition remove_id (id : nat) (ids : list nat) : list nat :=
  filter (λ i, i ≠ id) ids.

Definition run_turn (t : turn) (l : loop) : loop :=
  match t with
  | Submit rs =>
      checkpoint (fold_left (λ l r, wrappedDefaultEval r l) rs l)
  | Resume id =>
      if bool_decide (id ∈ suspended l)
      then Loop (microtasks l) (remove_id id (suspended l))
                (trace l ++ [Done id])
      else l
  end.

Definition run (ts : list turn) : loop :=
  fold_left (λ l t, run_turn t l) ts idle.

(** The requests of a schedule in the order of their submission. *)
Definition submitted (ts : list turn) : list nat :=
  flat_map (λ t, match t with
                 | Submit rs => map rid rs
                 | Resume _ => []
                 end) ts.

(** The requests in the order [defaultEval] was entered for them. *)
Definition begun (t : list observation) : list nat :=
  omap (λ o, match o with Begin i => Some i | Done _ => None end) t.

Definition then_jobs (js : list job) : list nat :=
  omap (λ j, match j with ThenJob r => Some (rid r) | CatchJob _ => None end)
       js.






End EvalPipeline.

(** ** Server.initializeHistory *)

Module History.
Import Text.

(** [historyLines.pop()]: the last element and the shortened array. *)
Definition pop (lines : list string) : option (string * list string) :=
  match reverse lines with
  | [] => None
  | line :: before => Some (line, reverse before)
  end.

(** [line && /\S/.test(line) && ! seenLines[line]]. *)
Definition fresh (line : string) (seenLines : gset string) : bool :=
  negb (String.eqb line EmptyString)
  && has_non_space line
  && negb (bool_decide (line ∈ seenLines)).

(** The [while (rli.history && historyLines.length > 0)] loop; each
    iteration pops one line, so [length historyLines] iterations
    suffice. *)
Fixpoint load (fuel : nat) (historyLines : list string)
    (seenLines : gset string) (history : list string) : list string :=
  match fuel with
  | O => history
  | S fuel' =>
      match pop historyLines with
      | None => history
      | Some (line, historyLines') =>
          if fresh line seenLines
          then load fuel' historyLines' ({[line]} ∪ seenLines)
                    (history ++ [line])
          else load fuel' historyLines' seenLines history
      end
  end.

(** The same loop over the lines listed from the last one to the first. *)
Fixpoint scan (newest_first : list string) (seenLines : gset string)
  : list string :=
  match newest_first with
  | [] => []
  | line :: older =>
      if fresh line seenLines
      then line :: scan older ({[line]} ∪ seenLines)
      else scan older seenLines
  end.

(** The recall list [rli.history] after initializeHistory, from the text
    of the history file and the list the REPL had ([None] when
    [rli.history] was not set). *)
Definition initializeHistory (file : string)
    (rli_history : option (list string)) : list string :=
  let historyLines := split file in
  load (length historyLines) historyLines ∅ (default [] rli_history).

(** The loop pops the newest line first and pushes it last, so the array
    runs from the newest line to the oldest. *)
Definition oldest_to_newest (history : list string) : list string :=
  reverse history.

Definition blank (line : string) : bool :=
  String.eqb line EmptyString || negb (has_non_space line).

(** The recall list in the words of the specification: blank lines are
    dropped and a line is kept only at its most recent occurrence, the
    survivors staying in their order. *)
Fixpoint most_recent_only (lines : list string) : list string :=
  match lines with
  | [] => []
  | line :: later =>
      if blank line || bool_decide (line ∈ later)
      then most_recent_only later
      else line :: most_recent_only later
  end.

End History.

(** ** Sample handshakes *)

Module Samples.
Import Text JS.

(** The server's key in the samples. *)
Definition secret : string := "abc".

(** [{"key":"abc"}] *)
Definition hello : string :=
  "{" +:+ quoted "key" +:+ ":" +:+ quoted "abc" +:+ "}".

(** [{"key":"abd"}] *)
Definition wrong_key : string :=
  "{" +:+ quoted "key" +:+ ":" +:+ quoted "abd" +:+ "}".

(** [{"key":"abc","columns":80,"evaluateAndExit":{"command":"1+1"}}] *)
Definition one_plus_one : string :=
  "{" +:+ quoted "key" +:+ ":" +:+ quoted "abc" +:+ ","
  +:+ quoted "columns" +:+ ":80,"
  +:+ quoted "evaluateAndExit" +:+ ":{"
  +:+ quoted "command" +:+ ":" +:+ quoted "1+1" +:+ "}}".

(** [{"key":"abc","columns":80,"input":"x","useGlobal":true,
    "terminal":false}] *)
Definition overriding : string :=
  "{" +:+ quoted "key" +:+ ":" +:+ quoted "abc" +:+ ","
  +:+ quoted "columns" +:+ ":80,"
  +:+ quoted "input" +:+ ":" +:+ quoted "x" +:+ ","
  +:+ quoted "useGlobal" +:+ ":true,"
  +:+ quoted "terminal" +:+ ":false}".

Definition overriding_options : object :=
  [("key", Str "abc"); ("columns", Num 80); ("input", Str "x");
   ("useGlobal", Bool true); ("terminal", Bool false)].

Definition one_plus_one_options : object :=
  [("key", Str "abc"); ("columns", Num 80);
   ("evaluateAndExit", Obj [("command", Str "1+1")])].

(** The header of the specification's framing example, cut inside the
    header and cut right behind it. *)
Definition cut_inside : list string :=
  ["{" +:+ String DQ "ke";
   "y" +:+ String DQ ":" +:+ quoted "abc" +:+ "}" +:+ nl
   +:+ "foo" +:+ nl +:+ "bar"].

Definition cut_behind : list string :=
  [hello; nl +:+ "foo" +:+ nl +:+ "bar"].

(** The header, a newline and [caf] followed by the two bytes C3 A9 of
    an e with acute accent and a newline, cut between the two bytes. *)
Definition cut_in_character : list string :=
  [hello +:+ nl +:+ "caf" +:+ String "195"%char EmptyString;
   String "169"%char nl].

(** A header whose value holds the two bytes C3 A9, cut between the
    two, and a newline. *)
Definition cut_in_header : list string :=
  ["{" +:+ quoted "key" +:+ ":" +:+ String DQ "caf"
   +:+ String "195"%char EmptyString;
   String "169"%char (String DQ "}") +:+ nl].

(** [{"key":"caf"}] with C3 A9 behind [caf]. *)
Definition accented : string :=
  "{" +:+ quoted "key" +:+ ":"
  +:+ quoted ("caf" +:+ String "195"%char (String "169"%char EmptyString))
  +:+ "}".

(** The header and a payload with no newline between them, in one chunk
    and in two. *)
Definition glued : list string := [hello +:+ "foo"].

Definition glued_cut : list string := [hello; "foo"].

(** The JSON document [12] followed by a payload, cut inside the
    document. *)
Definition cut_number : list string :=
  ["1"; "2" +:+ nl +:+ "foo"].

(** The sample server: the executable platform functions and the sample
    key. *)
Definition serve (evs : list Connection.event) (c : Connection.conn)
  : Connection.conn :=
  @Connection.run JSONData.builtins secret evs c.

Definition read (chunks : list string)
  : FrameReader.reader * list FrameReader.callback_args :=
  @FrameReader.feed JSONData.builtins chunks.

End Samples.

(** ** Newlines *)

Module Lines.
Import Text.

(** [s] without its newline characters: what [onData] has put into
    [dataSoFar] once it has gone through the pieces of [s]. *)
Fixpoint strip_newlines (s : string) : string :=
  match s with
  | EmptyString => EmptyString
  | String c s' =>
      if Ascii.eqb c LF then strip_newlines s'
      else String c (strip_newlines s')
  end.

(** [s] is empty or its last character is a newline. *)
Fixpoint newline_terminated (s : string) : bool :=
  match s with
  | EmptyString => true
  | String c EmptyString => Ascii.eqb c LF
  | String _ s' => newline_terminated s'
  end.

(** The text [fs.writeSync(historyFd, line + "\n")] appends for each of
    the lines. *)
Fixpoint terminated (lines : list string) : string :=
  match lines with
  | [] => EmptyString
  | line :: lines' => line +:+ nl +:+ terminated lines'
  end.

End Lines.

(** ** The whole connection fed with chunks *)

Module Wire.
Import FrameReader Connection.

(** The "data" events of a list of chunks. *)
Definition data_events (chunks : list string) : list event :=
  map (λ chunk, Stream (Data chunk)) chunks.

(** The reader after an exception of [JSON.parse] other than a
    SyntaxError: finished, nothing piped. *)
Definition failed (d : string) : reader :=
  Reader d true false false false false EmptyString 1.

(** The silent end of a source stream. *)
Definition closed (c : conn) : Prop :=
  socket c = false ∧ output c = false ∧ settled c.

End Wire.

(** ** The history file during a session: the "line" and "exit"
    listeners of initializeHistory (lines 322-331) *)

Module HistoryFile.
Import Text History.

(** [historyFd] and the contents of the file it was opened on with flag
    [a+], where every write appends. *)
Record store := Store {
  historyFd : Z;
  contents : string
}.

(** [fs.openSync(historyFile, "a+")] handing out the descriptor [fd]. *)
Definition openSync (fd : N) (file : string) : store :=
  Store (Z.of_N fd) file.

(** The listener of "line". *)
Definition onLine (line : string) (st : store) : store :=
  if (0 <=? historyFd st)%Z && has_non_space line
  then Store (historyFd st) (contents st +:+ line +:+ nl)
  else st.

(** The listener of "exit": [fs.closeSync(historyFd); historyFd = -1]. *)
Definition onExit (st : store) : store :=
  Store (-1) (contents st).

Inductive input :=
| Line (line : string)    (* the REPL read a line *)
| Exit.                   (* the REPL emits "exit" *)

Definition listen_to (i : input) (st : store) : store :=
  match i with
  | Line line => onLine line st
  | Exit => onExit st
  end.

Definition session (inputs : list input) (st : store) : store :=
  fold_left (λ st i, listen_to i st) inputs st.

(** The lines among the inputs. *)
Definition lines_of (inputs : list input) : list string :=
  omap (λ i, match i with Line l => Some l | Exit => None end) inputs.

End HistoryFile.

(** ** The discovery record: Server.listen and disable

    The file system is a finite map from paths to files.
    [fs.writeFileSync(path, data, {mode})] replaces the contents of an
    existing file and leaves its permissions alone; it creates a missing
    file with the permissions [mode] less the bits of the process's umask.
    Paths in [denied] can be neither written nor unlinked: there
    [writeFileSync] throws and [unlink] reports an error. *)

Module Discovery.
Import Text JS.

Record file := File {
  data : string;
  mode : Z
}.

(** The files by path.  [pinned] holds the paths [fs.unlink] reports an
    error for, [unwritable] those [fs.writeFileSync] throws for. *)
Record filesystem := FileSystem {
  files : gmap string file;
  pinned : gset string;
  unwritable : gset string
}.

(** [parseInt("600", 8)]. *)
Definition INFO_FILE_MODE : Z := 6 * 8 * 8 + 0 * 8 + 0.

(** The permission bits of group and others. *)
Definition GROUP_AND_OTHERS : Z := 7 * 8 + 7.

(** [fs.writeFileSync(path, text, { mode })]; [None] when it throws.  The
    mode is given to a file that is created, less the bits of the umask;
    a file that exists keeps the mode it has. *)
Definition writeFileSync (umask : Z) (path text : string) (m : Z)
    (fs : filesystem) : option filesystem :=
  if bool_decide (path ∈ unwritable fs) then None
  else
    let f := match files fs !! path with
             | Some old => File text (mode old)
             | None => File text (Z.land m (Z.lnot umask))
             end in
    Some (FileSystem (<[path := f]> (files fs)) (pinned fs)
                     (unwritable fs)).

(** [fs.unlink(path, callback)] with a callback that ignores the error. *)
Definition unlink (path : string) (fs : filesystem) : filesystem :=
  if bool_decide (path ∈ pinned fs) then fs
  else FileSystem (base.delete path (files fs)) (pinned fs)
                  (unwritable fs).

Definition enabled_record (port : Z) (key : string) : value :=
  Obj [("status", Str "enabled"); ("port", Num port); ("key", Str key)].

Definition disabled_record : value :=
  Obj [("status", Str "disabled");
       ("reason", Str "Shell server has shut down.")].

Section WithPlatform.
Context `{Builtins}.

(** [path.join]. *)
Variable path_join : string → string → string.

(** The umask of the process. *)
Variable umask : Z.

(** getInfoFile and getHistoryFile. *)
Definition getInfoFile (shellDir : string) : string :=
  path_join shellDir "info.json".

Definition getHistoryFile (shellDir : string) : string :=
  path_join shellDir "history".

(** Server.listen (lines 72-87), the server having been given [port]:
    the stale record is unlinked, then the new one written.  [None] is
    the exception of [writeFileSync], which nothing catches. *)
Definition listen (shellDir key : string) (port : Z) (fs : filesystem)
  : option filesystem :=
  let infoFile := getInfoFile shellDir in
  writeFileSync umask infoFile
    (JSON_stringify (enabled_record port key) +:+ nl)
    INFO_FILE_MODE (unlink infoFile fs).

(** disable (lines 36-50): the exception of [writeFileSync] is caught
    and ignored. *)
Definition disable (shellDir : string) (fs : filesystem) : filesystem :=
  match writeFileSync umask (getInfoFile shellDir)
          (JSON_stringify disabled_record +:+ nl) INFO_FILE_MODE fs with
  | Some fs' => fs'
  | None => fs
  end.

(** What the host does with one shell directory over time. *)
Inductive operation :=
| Listen (key : string) (port : Z)
| Disable.

(** A [Listen] whose write fails leaves the file system as the unlink
    left it. *)
Definition apply (shellDir : string) (op : operation) (fs : filesystem)
  : filesystem :=
  match op with
  | Listen key port =>
      default (unlink (getInfoFile shellDir) fs)
              (listen shellDir key port fs)
  | Disable => disable shellDir fs
  end.

Definition apply_all (shellDir : string) (ops : list operation)
    (fs : filesystem) : filesystem :=
  fold_left (λ fs op, apply shellDir op fs) ops fs.

End WithPlatform.

(** The file at [path], if any, gives group and others no permission. *)
Definition owner_only (path : string) (fs : filesystem) : Prop :=
  ∀ f, files fs !! path = Some f → Z.land (mode f) GROUP_AND_OTHERS = 0%Z.

End Discovery.

(** ** The help texts of enableInteractiveMode (lines 262-270) *)

Module ReplHelp.

(** [repl.commands]: the help text of each command, by keyword. *)
Abbreviation commands := (gmap string string).

(** [addHelp(cmd, helpText)]. *)
Definition addHelp (cmd helpText : string) (cs : commands) : commands :=
  match cs !! cmd with
  | Some _ => <[cmd := helpText]> cs
  | None =>
      match cs !! ("." +:+ cmd) with
      | Some _ => <["." +:+ cmd := helpText]> cs
      | None => cs
      end
  end.

(** The keywords and the texts of the three calls. *)
Definition help_texts : list (string * string) :=
  [("break", "Terminate current command input and display new prompt");
   ("exit", "Disconnect from server and leave shell");
   ("help", "Show this help information")].

(** The three calls of addHelp. *)
Definition improve_help (cs : commands) : commands :=
  addHelp "help" "Show this help information"
    (addHelp "exit" "Disconnect from server and leave shell"
       (addHelp "break"
          "Terminate current command input and display new prompt" cs)).

End ReplHelp.

(** ** Completion callbacks of the pipeline *)

Module Completion.
Import EvalPipeline.

(** The requests whose callback has fired, in the order of firing. *)
Definition fired (t : list observation) : list nat :=
  omap (λ o, match o with Done i => Some i | Begin _ => None end) t.

(** The requests of the queued jobs: each job leads to one callback,
    at once, through a suspension or through the rejection handler. *)
Definition owed (js : list job) : list nat :=
  map (λ j, match j with ThenJob r | CatchJob r => rid r end) js.

(** Every request in flight or done. *)
Definition account (l : loop) : list nat :=
  fired (trace l) ++ suspended l ++ owed (microtasks l).

(** The requests handed to [wrappedDefaultEval], in order. *)
Definition requests (ts : list turn) : list request :=
  flat_map (λ t, match t with
                 | Submit rs => rs
                 | Resume _ => []
                 end) ts.

(** Among the requests [rs], only evaluators that suspend are
    suspended, and only requests of [rs] wait for their evaluator. *)
Definition sound (rs : list request) (l : loop) : Prop :=
  (∀ id, id ∈ suspended l →
         ∃ r, r ∈ rs ∧ rid r = id ∧ behaviour r = Suspends)
  ∧ (∀ r, ThenJob r ∈ microtasks l → r ∈ rs).

End Completion.

(** ** What a session leaves in the history file *)

Module HistoryLog.
Import Text HistoryFile.

(** The lines with something else than white space that come before the
    first "exit". *)
Fixpoint logged (inputs : list input) : list string :=
  match inputs with
  | [] => []
  | Exit :: _ => []
  | Line line :: inputs' =>
      if has_non_space line then line :: logged inputs'
      else logged inputs'
  end.

End HistoryLog.

(** ** Sample directories and schedules *)

Module Fixtures.
Import Text Discovery.

(** [path.join] on two segments that need no normalisation. *)
Definition posix_join (dir name : string) : string :=
  dir +:+ "/" +:+ name.

Definition shell_dir : string := "/app/.meteor/local/shell".

(** Umask 022. *)
Definition usual_umask : Z := 2 * 8 + 2.

(** A directory with an info file that everybody may read. *)
Definition stale : filesystem :=
  FileSystem {[ getInfoFile posix_join shell_dir
                := File "stale" (6 * 8 * 8 + 4 * 8 + 4) ]} ∅ ∅.

(** One evaluator that calls back, one that suspends, one that throws;
    then the suspended one resumes. *)
Definition mixed_schedule : list EvalPipeline.turn :=
  [EvalPipeline.Submit
     [EvalPipeline.Request 1 EvalPipeline.CallsBack;
      EvalPipeline.Request 2 EvalPipeline.Suspends;
      EvalPipeline.Request 3 EvalPipeline.Throws];
   EvalPipeline.Resume 2].

(** A history file and the inputs of a session. *)
Definition old_history : string := "a" +:+ nl +:+ "b" +:+ nl.

Definition typed : list HistoryFile.input :=
  [HistoryFile.Line "c"; HistoryFile.Line "  "; HistoryFile.Line "a";
   HistoryFile.Exit; HistoryFile.Line "d"].

End Fixtures.

(* ===================================================================== *)
(** * Part II: properties                                                 *)
(* ===================================================================== *)

(** ** Text *)

Module TextFacts.
Import Text.

Lemma append_empty_r (s : string) : s +:+ EmptyString = s.
Proof. induction s as [|c s IH]; simpl; [done | by rewrite IH]. Qed.

Lemma append_assoc (a b c : string) : (a +:+ b) +:+ c = a +:+ b +:+ c.
Proof. induction a as [|x a IH]; simpl; [done | by rewrite IH]. Qed.

Lemma length_append (a b : string) :
  String.length (a +:+ b) = (String.length a + String.length b)%nat.
Proof. induction a as [|x a IH]; simpl; [done | by rewrite IH]. Qed.

Lemma split_not_nil (s : string) : split s ≠ [].
Proof.
  destruct s as [|c s]; simpl; [done |].
  destruct (Ascii.eqb c LF); [done |].
  destruct (split s); done.
Qed.

Lemma join_cons (l : string) (ls : list string) :
  ls ≠ [] → join (l :: ls) = l +:+ nl +:+ join ls.
Proof. destruct ls; [done | reflexivity]. Qed.

(** Splitting loses nothing: joining the pieces gives the text back. *)
Lemma join_split (s : string) : join (split s) = s.
Proof.
  induction s as [|c s IH]; [done |].
  simpl. destruct (Ascii.eqb_spec c LF) as [->|Hc].
  - rewrite join_cons by apply split_not_nil. by rewrite IH.
  - pose proof (split_not_nil s) as Hne.
    destruct (split s) as [|l ls]; [done |].
    destruct ls as [|l' ls]; simpl in *; by rewrite <- IH.
Qed.

Lemma split_no_newline (s : string) : no_newline s = true → split s = [s].
Proof.
  induction s as [|c s IH]; simpl; [done |].
  intros [Hc Hs]%andb_prop. destruct (Ascii.eqb c LF); [done |].
  by rewrite IH.
Qed.

(** The first piece of a text is what precedes its first newline. *)
Lemma split_app_nl (a r : string) :
  no_newline a = true → split (a +:+ nl +:+ r) = a :: split r.
Proof.
  induction a as [|c a IH]; simpl; [done |].
  intros [Hc Ha]%andb_prop. destruct (Ascii.eqb c LF); [done |].
  unfold nl in IH; simpl in IH. by rewrite IH.
Qed.

Lemma no_newline_append (a b : string) :
  no_newline (a +:+ b) = no_newline a && no_newline b.
Proof.
  induction a as [|c a IH]; simpl; [done |].
  rewrite IH. by rewrite andb_assoc.
Qed.

(** Two ways of cutting the same text: one cut lies before the other. *)
Lemma append_eq_append (a b c d : string) :
  a +:+ b = c +:+ d →
  (∃ m, c = a +:+ m ∧ b = m +:+ d) ∨
  (∃ x y, a = c +:+ String x y ∧ d = String x y +:+ b).
Proof.
  revert c. induction a as [|x a IH]; intros c Heq; simpl in *.
  - left. by exists c.
  - destruct c as [|y c]; simpl in *.
    + right. by exists x, a.
    + injection Heq as -> Heq.
      destruct (IH _ Heq) as [(m & -> & ->)|(x' & y' & -> & ->)].
      * left. by exists m.
      * right. by exists x', y'.
Qed.

Lemma elem_of_proper_prefixes (a : string) (x : ascii) (b : string) :
  a ∈ proper_prefixes (a +:+ String x b).
Proof.
  induction a as [|c a IH]; simpl.
  - apply list_elem_of_here.
  - apply list_elem_of_further, list_elem_of_fmap. by exists a.
Qed.

Lemma concat_chunks_app (xs ys : list string) :
  concat (xs ++ ys) = concat xs +:+ concat ys.
Proof.
  induction xs as [|x xs IH]; simpl; [done |].
  by rewrite IH, append_assoc.
Qed.

End TextFacts.

(** ** Newlines *)

Module LinesFacts.
Import Text Lines TextFacts.

Lemma strip_append (a b : string) :
  strip_newlines (a +:+ b) = strip_newlines a +:+ strip_newlines b.
Proof.
  induction a as [|c a IH]; simpl; [done |].
  destruct (Ascii.eqb c LF); simpl; by rewrite IH.
Qed.

Lemma strip_no_newline (s : string) :
  no_newline s = true → strip_newlines s = s.
Proof.
  induction s as [|c s IH]; simpl; [done |].
  intros [Hc Hs]%andb_prop. destruct (Ascii.eqb c LF); [done |].
  by rewrite IH.
Qed.

(** Stripping the newlines is gluing the pieces of [split]. *)
Lemma strip_split (s : string) : strip_newlines s = concat (split s).
Proof.
  induction s as [|c s IH]; simpl; [done |].
  destruct (Ascii.eqb c LF); simpl; [done |].
  pose proof (split_not_nil s) as Hne.
  destruct (split s) as [|l ls]; [done |]. simpl in *. by rewrite IH.
Qed.

Lemma split_pieces (s : string) :
  Forall (λ l, no_newline l = true) (split s).
Proof.
  induction s as [|c s IH]; simpl; [by repeat constructor |].
  destruct (Ascii.eqb c LF) eqn:Hc; [by constructor |].
  pose proof (split_not_nil s) as Hne.
  destruct (split s) as [|l ls]; [done |].
  inversion IH; subst. constructor; [| done]. simpl. by rewrite Hc.
Qed.

Lemma strip_join (ls : list string) :
  Forall (λ l, no_newline l = true) ls →
  strip_newlines (join ls) = concat ls.
Proof.
  induction 1 as [|l ls Hl Hls IH]; [done |].
  destruct ls as [|l' ls].
  - simpl. rewrite append_empty_r. by apply strip_no_newline.
  - rewrite join_cons by done. rewrite !strip_append, IH.
    rewrite strip_no_newline by done. done.
Qed.

(** Lines written one after the other, each with its newline, are the
    pieces of the text, in front of the pieces of what follows. *)
Lemma split_terminated (ls : list string) (t : string) :
  Forall (λ l, no_newline l = true) ls →
  split (terminated ls +:+ t) = ls ++ split t.
Proof.
  induction 1 as [|l ls Hl Hls IH]; [done |].
  cbn [terminated]. rewrite !append_assoc, split_app_nl by done.
  by rewrite IH.
Qed.

Lemma join_terminated (ls : list string) :
  ls ≠ [] → join ls +:+ nl = terminated ls.
Proof.
  induction ls as [|l ls IH]; [done |]. intros _.
  destruct ls as [|l' ls].
  - cbn [join terminated]. by rewrite append_empty_r.
  - rewrite join_cons by done.
    change (terminated (l :: l' :: ls))
      with (l +:+ nl +:+ terminated (l' :: ls)).
    rewrite <- IH by done. by rewrite !append_assoc.
Qed.

(** A text that ends with a newline is a text followed by a newline. *)
Lemma newline_terminated_inv (s : string) :
  newline_terminated s = true → s = EmptyString ∨ ∃ s', s = s' +:+ nl.
Proof.
  induction s as [|c s IH]; [by left |]. intros Hs. right.
  destruct s as [|c' s].
  - simpl in Hs. apply Ascii.eqb_eq in Hs as ->. by exists EmptyString.
  - destruct IH as [|[s' ->]]; [done.. |]. by exists (String c s').
Qed.

(** The pieces of two texts around a newline. *)
Lemma split_around_newline (a b : string) :
  split (a +:+ nl +:+ b) = split a ++ split b.
Proof.
  induction a as [|c a IH]; [done |].
  change (String c a +:+ nl +:+ b) with (String c (a +:+ nl +:+ b)).
  cbn [split]. rewrite IH.
  destruct (Ascii.eqb c LF); [done |].
  pose proof (split_not_nil a) as Hne.
  by destruct (split a).
Qed.

(** The first [k] pieces of a text, glued, are a prefix of the text
    without its newlines; unless they are all the pieces, the prefix ends
    before a newline. *)
Lemma take_split (t : string) : ∀ k,
  (0 < k)%nat →
  ∃ p q, t = p +:+ q
         ∧ concat (take k (split t)) = strip_newlines p
         ∧ ((k < length (split t))%nat → q ≠ EmptyString).
Proof.
  induction t as [|c t IH]; intros k Hk.
  - exists EmptyString, EmptyString. destruct k as [|k]; [lia |].
    split; [done |]. split; [by destruct k |]. simpl. lia.
  - destruct k as [|k]; [lia |]. cbn [split].
    destruct (Ascii.eqb c LF) eqn:Hc.
    + apply Ascii.eqb_eq in Hc as ->. destruct k as [|k].
      * exists EmptyString, (String LF t). by repeat split.
      * destruct (IH (S k)) as (p & q & -> & Hp & Hq); [lia |].
        exists (String LF p), q. split; [done |]. split.
        -- cbn [take concat strip_newlines]. by rewrite Ascii.eqb_refl.
        -- cbn [length]. intros Hlt. apply Hq. lia.
    + pose proof (split_not_nil t) as Hne.
      destruct (IH (S k)) as (p & q & -> & Hp & Hq); [lia |].
      destruct (split (p +:+ q)) as [|l ls]; [done |].
      exists (String c p), q. split; [done |]. split.
      * cbn [take concat strip_newlines] in *. rewrite Hc, <- Hp. done.
      * cbn [length] in *. exact Hq.
Qed.

End LinesFacts.

(** ** [buffer.toString("utf8")] *)

Module BufferFacts.
Import Buffer.

(** Decoding leaves ASCII as it is. *)
Lemma toString_ascii (s : string) : ascii_only s = true → toString s = s.
Proof.
  unfold toString. induction s as [|b s IH]; [done |].
  cbn [ascii_only]. intros [Hb Hs]%andb_prop.
  cbn [decode step]. unfold first_byte. rewrite Hb. cbn [fst snd].
  by rewrite IH.
Qed.

End BufferFacts.

(** ** readJSONFromStream *)

Module FrameReaderFacts.
Import Text Lines JS FrameReader TextFacts LinesFacts.

Lemma start_waiting : waiting start.
Proof. by repeat split. Qed.

Lemma waiting_not_completed r : waiting r → completed r → False.
Proof. intros (Hf & _) (Hf' & _). congruence. Qed.

Lemma finish_outcome e j r : outcome_ok r (finish e j r).
Proof.
  split.
  - intros (Hf & He & Hc & Hd). right. unfold finish. rewrite Hf. simpl.
    split; [by eexists |]. rewrite Hd. by repeat split.
  - intros (Hf & Hrest). unfold finish. rewrite Hf. simpl.
    split; [done |]. by split.
Qed.

Lemma set_dataSoFar_waiting d r : waiting r → waiting (set_dataSoFar d r).
Proof. by intros (? & ? & ? & ?). Qed.

Lemma write_waiting s r : waiting r → waiting (write s r).
Proof. by intros (? & ? & ? & ?). Qed.

Lemma pipe_waiting r : waiting r → waiting (pipe r).
Proof. by intros (? & ? & ? & ?). Qed.

Lemma write_completed s r : completed r → completed (write s r).
Proof. by intros (? & ? & ? & ? & ?). Qed.

Section WithBuiltins.
Context `{Builtins}.

Lemma onData_loop_waiting lines r :
  waiting r →
  ((onData_loop lines r).2 = None ∧ waiting (onData_loop lines r).1)
  ∨ (is_Some (onData_loop lines r).2
     ∧ completed (onData_loop lines r).1).
Proof.
  revert r. induction lines as [|line lines IH]; intros r Hw; simpl.
  - by left.
  - destruct (JSON_parse (dataSoFar r +:+ line)) as [json| |e].
    + apply finish_outcome, pipe_waiting.
      destruct lines; [| apply write_waiting];
        by apply set_dataSoFar_waiting.
    + by apply IH, set_dataSoFar_waiting.
    + by apply finish_outcome, set_dataSoFar_waiting.
Qed.

Lemma deliver_data_unpiped chunk r :
  data_listener r = true → piped r = false →
  deliver (Data chunk) r = onData chunk r.
Proof.
  intros Hd Hp. simpl. rewrite Hd, Hp. by destruct (onData chunk r).
Qed.

Lemma deliver_outcome ev r : outcome_ok r (deliver ev r).
Proof.
  split.
  - intros Hw. pose proof Hw as (Hf & He & Hc & Hd).
    destruct ev as [chunk|e|]; simpl.
    + destruct (data_listener r); simpl.
      * destruct (onData_loop_waiting
                    (split (Buffer.toString chunk)) r Hw)
          as [[Hn Hw']|[Hs Hc']]; [left | right];
          (split; [done |]);
          destruct (piped r);
          auto using write_waiting, write_completed.
      * left. split; [done |].
        destruct (piped r); auto using write_waiting.
    + rewrite He. by apply finish_outcome.
    + rewrite Hc. by apply finish_outcome.
  - intros Hc. pose proof Hc as (Hf & Hd & He & Hcl & Hn).
    destruct ev as [chunk|e|]; simpl.
    + rewrite Hd. split; [done |]. simpl.
      destruct (piped r); [by apply write_completed | done].
    + by rewrite He.
    + by rewrite Hcl.
Qed.

Lemma deliver_completed ev r :
  completed r → ∃ r', deliver ev r = (r', None) ∧ completed r'.
Proof.
  intros Hc. destruct (deliver_outcome ev r) as [_ Hout].
  destruct (deliver ev r) as [r' cb]. destruct (Hout Hc) as [Hn Hc'].
  simpl in *. subst cb. by exists r'.
Qed.

Lemma run_cons ev evs r :
  run (ev :: evs) r =
  ((run evs (deliver ev r).1).1,
   match (deliver ev r).2 with
   | Some a => a :: (run evs (deliver ev r).1).2
   | None => (run evs (deliver ev r).1).2
   end).
Proof.
  simpl. destruct (deliver ev r) as [r1 c]. simpl.
  by destruct (run evs r1).
Qed.

(** A completed reader ignores every later event. *)
Lemma run_completed evs r :
  completed r → (run evs r).2 = [] ∧ completed (run evs r).1.
Proof.
  revert r. induction evs as [|ev evs IH]; intros r Hc; [done |].
  rewrite run_cons. simpl.
  destruct (deliver_outcome ev r) as [_ Hd].
  destruct (Hd Hc) as [-> Hc']. by apply IH.
Qed.

Lemma run_waiting evs r :
  waiting r →
  ((run evs r).2 = [] ∧ waiting (run evs r).1)
  ∨ (length (run evs r).2 = 1%nat ∧ completed (run evs r).1).
Proof.
  revert r. induction evs as [|ev evs IH]; intros r Hw; [by left |].
  rewrite run_cons. simpl.
  destruct (deliver_outcome ev r) as [Hd _].
  destruct (Hd Hw) as [[-> Hw']|[[a ->] Hc]].
  - by apply IH.
  - right. destruct (run_completed evs _ Hc) as [-> Hc']. done.
Qed.

Lemma run_app evs1 evs2 r :
  run (evs1 ++ evs2) r =
  ((run evs2 (run evs1 r).1).1,
   (run evs1 r).2 ++ (run evs2 (run evs1 r).1).2).
Proof.
  revert r. induction evs1 as [|ev evs1 IH]; intros r.
  - simpl. by destruct (run evs2 r).
  - rewrite <- app_comm_cons, !run_cons, IH. simpl.
    by destruct ((deliver ev r).2).
Qed.

(** C8.  Over any sequence of "data", "error" and "close" events on
    the source stream, readJSONFromStream calls its callback at most
    once; the body of [finish] that detaches the three listeners runs
    exactly as often as the callback is called; and once the callback
    has been called the listeners are detached and no later event
    calls it again or detaches anything a second time. *)
Theorem callback_at_most_once (evs later : list stream_event) :
  (length (run evs start).2 ≤ 1)%nat
  ∧ detached (run evs start).1 = length (run evs start).2
  ∧ (length (run evs start).2 = 1%nat →
     data_listener (run evs start).1 = false
     ∧ error_listener (run evs start).1 = false
     ∧ close_listener (run evs start).1 = false
     ∧ (run later (run evs start).1).2 = []
     ∧ detached (run later (run evs start).1).1 = 1%nat).
Proof.
  destruct (run_waiting evs start start_waiting)
    as [[Hn Hw]|[Hn Hc]]; rewrite Hn.
  - destruct Hw as (_ & _ & _ & ->). simpl. repeat split; lia.
  - pose proof Hc as (_ & Hd & He & Hcl & Hdet).
    destruct (run_completed later _ Hc) as [Hl (_ & _ & _ & _ & Hdet')].
    repeat split; first [done | lia].
Qed.

(** After the hand-over every chunk goes into the pass-through stream
    as it is. *)
Lemma run_piping chunks d out :
  run (map Data chunks) (piping d out)
  = (piping d (out +:+ concat chunks), []).
Proof.
  revert out. induction chunks as [|c cs IH]; intros out.
  - simpl. by rewrite append_empty_r.
  - change (map Data (c :: cs)) with (Data c :: map Data cs).
    rewrite run_cons. simpl.
    change (write c (piping d out)) with (piping d (out +:+ c)).
    rewrite IH. simpl. by rewrite append_assoc.
Qed.

Lemma onData_loop_parsed line lines r j :
  JSON_parse (dataSoFar r +:+ line) = Parsed j →
  lines ≠ [] →
  onData_loop (line :: lines) r
  = finish Null j
      (pipe (write (join lines)
               (set_dataSoFar (dataSoFar r +:+ line) r))).
Proof. intros Hp Hne. simpl. rewrite Hp. by destruct lines. Qed.

Lemma onData_header c tail d j :
  Buffer.toString (c +:+ tail) = c +:+ tail →
  no_newline c = true →
  JSON_parse (d +:+ c) = Parsed j →
  deliver (Data (c +:+ tail)) (accumulating d)
  = (piping (d +:+ c)
       match tail with
       | EmptyString => EmptyString
       | String _ after => after
       end,
     Some (CallbackArgs Null j))
  ∨ ∃ x after, tail = String x after ∧ x ≠ LF.
Proof.
  intros Hutf Hc Hp. destruct tail as [|x after].
  - left. rewrite deliver_data_unpiped by done.
    unfold onData. rewrite Hutf, append_empty_r.
    rewrite split_no_newline by done. simpl. by rewrite Hp.
  - destruct (decide (x = LF)) as [->|Hx]; [left | right; eauto].
    rewrite deliver_data_unpiped by done.
    unfold onData. rewrite Hutf.
    change (String LF after) with (nl +:+ after).
    rewrite split_app_nl by done.
    rewrite (onData_loop_parsed _ _ _ j);
      [| exact Hp | apply split_not_nil].
    by rewrite join_split.
Qed.

(** The loop on pieces none of which completes a text that
    [JSON.parse] accepts. *)
Lemma onData_loop_pending (lines : list string) : ∀ d,
  (∀ k, (0 < k ≤ length lines)%nat →
        JSON_parse (d +:+ concat (take k lines)) = SyntaxError) →
  onData_loop lines (accumulating d)
  = (accumulating (d +:+ concat lines), None).
Proof.
  induction lines as [|line lines IH]; intros d Hfail.
  - simpl. by rewrite append_empty_r.
  - cbn [onData_loop]. cbn [dataSoFar accumulating set_dataSoFar].
    assert (JSON_parse (d +:+ line) = SyntaxError) as ->.
    { pose proof (Hfail 1%nat) as H1. cbn [take concat] in H1.
      rewrite append_empty_r in H1. apply H1. simpl. lia. }
    change (set_dataSoFar (d +:+ line) (accumulating d))
      with (accumulating (d +:+ line)).
    rewrite IH.
    + cbn [concat]. by rewrite append_assoc.
    + intros k Hk. rewrite append_assoc.
      apply (Hfail (S k)). simpl in *. lia.
Qed.

(** The loop on pieces that complete a header only with the last one. *)
Lemma onData_loop_header (pre : list string) : ∀ d rest j,
  pre ≠ [] →
  (∀ k, (0 < k < length pre)%nat →
        JSON_parse (d +:+ concat (take k pre)) = SyntaxError) →
  JSON_parse (d +:+ concat pre) = Parsed j →
  onData_loop (pre ++ rest) (accumulating d)
  = (piping (d +:+ concat pre) (join rest), Some (CallbackArgs Null j)).
Proof.
  induction pre as [|line pre IH]; intros d rest j Hne Hfail Hj; [done |].
  cbn [app onData_loop]. cbn [dataSoFar accumulating set_dataSoFar].
  destruct pre as [|line' pre].
  - simpl in Hj. rewrite append_empty_r in Hj. rewrite Hj.
    simpl. rewrite append_empty_r. by destruct rest.
  - assert (JSON_parse (d +:+ line) = SyntaxError) as ->.
    { pose proof (Hfail 1%nat) as H1. cbn [take concat] in H1.
      rewrite append_empty_r in H1. apply H1. simpl. lia. }
    change (set_dataSoFar (d +:+ line) (accumulating d))
      with (accumulating (d +:+ line)).
    rewrite (IH (d +:+ line) rest j); [| done | |].
    + cbn [concat]. by rewrite !append_assoc.
    + intros k Hk. rewrite append_assoc.
      apply (Hfail (S k)). simpl in *. lia.
    + rewrite append_assoc. exact Hj.
Qed.

(** The pieces of a text none of whose prefixes completes a header. *)
Lemma split_pending (t rest d : string) :
  rest ≠ EmptyString →
  (∀ m x y, t +:+ rest = m +:+ String x y →
            JSON_parse (d +:+ strip_newlines m) = SyntaxError) →
  ∀ k, (0 < k ≤ length (split t))%nat →
       JSON_parse (d +:+ concat (take k (split t))) = SyntaxError.
Proof.
  intros Hrest Hpre k Hk.
  destruct (take_split t k) as (p & q & -> & -> & _); [lia |].
  destruct rest as [|x y]; [done |].
  destruct q as [|x' q].
  - apply (Hpre p x y). by rewrite append_empty_r.
  - apply (Hpre p x' (q +:+ String x y)). by rewrite append_assoc.
Qed.

(** The pieces of the end of a header: only all of them complete it. *)
Lemma split_completing (h d : string) :
  (∀ m x y, h = m +:+ String x y →
            JSON_parse (d +:+ strip_newlines m) = SyntaxError) →
  ∀ k, (0 < k < length (split h))%nat →
       JSON_parse (d +:+ concat (take k (split h))) = SyntaxError.
Proof.
  intros Hpre k Hk.
  destruct (take_split h k) as (p & q & -> & -> & Hq); [lia |].
  destruct q as [|x q]; [by destruct Hq; [lia |] |].
  by apply (Hpre p x q).
Qed.

(** The heart of the framing: [d] has been accumulated, [h] is the
    part of the header still to come, and the chunks carry [h] and what
    follows it. *)
Lemma run_header chunks : ∀ d h j rest,
  JSON_parse (d +:+ strip_newlines h) = Parsed j →
  (∀ m x y, h = m +:+ String x y →
            JSON_parse (d +:+ strip_newlines m) = SyntaxError) →
  concat chunks = h +:+ rest →
  Forall (λ c, Buffer.toString c = c)
    (header_chunks (String.length h) chunks) →
  header_ends_chunk (String.length h) chunks = true
  ∨ (∃ payload, rest = nl +:+ payload) →
  run (map Data chunks) (accumulating d)
  = (piping (d +:+ strip_newlines h)
       (if header_ends_chunk (String.length h) chunks
        then rest else after_first rest),
     [CallbackArgs Null j]).
Proof.
  induction chunks as [|c cs IH];
    intros d h j rest Hp Hpre Hcat Hutf Hsep.
  - simpl in Hcat. destruct Hsep as [|[payload ->]]; [done |].
    destruct h; discriminate.
  - simpl in Hcat.
    change (map Data (c :: cs)) with (Data c :: map Data cs).
    rewrite run_cons, deliver_data_unpiped by done. unfold onData.
    cbn [header_chunks header_ends_chunk] in *.
    destruct (append_eq_append _ _ _ _ Hcat)
      as [(m & -> & Hcs)|(x & y & -> & Hrest)].
    + destruct m as [|x y].
      * (* the chunk ends with the last character of the header *)
        rewrite append_empty_r in *.
        rewrite Nat.leb_refl in Hutf. apply Forall_inv in Hutf.
        rewrite Hutf, Nat.eqb_refl.
        rewrite <- (app_nil_r (split c)).
        rewrite (onData_loop_header (split c) d [] j);
          [| apply split_not_nil | by apply split_completing
           | by rewrite <- strip_split].
        cbn [fst snd join]. rewrite run_piping. cbn [fst snd].
        by rewrite Hcs, <- strip_split.
      * (* the chunk ends inside the header *)
        rewrite length_append in *. cbn [String.length] in *.
        set (n := String.length c) in *. set (k := String.length y) in *.
        replace (n + S k <=? n)%nat
          with false in Hutf by (symmetry; apply Nat.leb_gt; lia).
        replace (n =? n + S k)%nat
          with false in * by (symmetry; apply Nat.eqb_neq; lia).
        replace (n <? n + S k)%nat
          with true in * by (symmetry; apply Nat.ltb_lt; lia).
        replace (n + S k - n)%nat with (S k) in * by lia.
        apply Forall_cons in Hutf as [Hc Hutf]. rewrite Hc.
        rewrite onData_loop_pending
          by (by apply (split_pending c (String x y))).
        cbn [fst snd]. rewrite <- strip_split.
        rewrite strip_append, <- append_assoc in Hp.
        rewrite (IH (d +:+ strip_newlines c) (String x y) j rest);
          try done.
        -- by rewrite strip_append, append_assoc.
        -- intros m x' y' Hm'. rewrite append_assoc, <- strip_append.
           apply (Hpre (c +:+ m) x' y'). rewrite Hm'.
           by rewrite append_assoc.
    + (* the chunk carries the end of the header and more *)
      rewrite length_append in *. cbn [String.length] in *.
      set (n := String.length h) in *. set (k := String.length y) in *.
      replace (n <=? n + S k)%nat
        with true in Hutf by (symmetry; apply Nat.leb_le; lia).
      replace (n + S k =? n)%nat
        with false in * by (symmetry; apply Nat.eqb_neq; lia).
      replace (n + S k <? n)%nat
        with false in * by (symmetry; apply Nat.ltb_ge; lia).
      destruct Hsep as [|[payload ->]]; [done |].
      unfold nl in Hrest. simpl in Hrest. injection Hrest as <- ->.
      apply Forall_inv in Hutf. rewrite Hutf.
      change (String LF y) with (nl +:+ y).
      rewrite split_around_newline.
      rewrite (onData_loop_header (split h) d (split y) j);
        [| apply split_not_nil | by apply split_completing
         | by rewrite <- strip_split].
      cbn [fst snd]. rewrite run_piping. cbn [fst snd].
      by rewrite join_split, <- strip_split.
Qed.

(** C2, amended.  A header [h], on one line or on several, that parses
    once its newlines are removed, no proper prefix of it doing so,
    followed by any bytes [rest] and cut into chunks anywhere, provided
    that each chunk up to the one that reaches the end of the header is
    well-formed UTF-8 by itself, so that decoding leaves it as it is,
    and that either a newline follows the header or a chunk ends with
    the last byte of the header: the callback is called once, with the
    header's value.  When no chunk ends with the last byte of the
    header, the pass-through stream receives exactly the bytes behind
    the newline that follows the header; when one does, it receives
    all the bytes behind the header, a newline that follows the header
    included. *)
Theorem header_then_payload (h : string) (j : value)
    (rest : string) (chunks : list string) :
  JSON_parse (strip_newlines h) = Parsed j →
  Forall (λ p, JSON_parse (strip_newlines p) = SyntaxError)
    (proper_prefixes h) →
  concat chunks = h +:+ rest →
  Forall (λ c, Buffer.toString c = c)
    (header_chunks (String.length h) chunks) →
  header_ends_chunk (String.length h) chunks = true
  ∨ (∃ payload, rest = nl +:+ payload) →
  (feed chunks).2 = [CallbackArgs Null j]
  ∧ (header_ends_chunk (String.length h) chunks = false →
     ∀ payload, rest = nl +:+ payload →
                passthrough (feed chunks).1 = payload)
  ∧ (header_ends_chunk (String.length h) chunks = true →
     passthrough (feed chunks).1 = rest).
Proof.
  intros Hp Hpre Hcat Hutf Hsep. unfold feed.
  change start with (accumulating EmptyString).
  rewrite (run_header chunks EmptyString h j rest); try done.
  - cbn [fst snd passthrough piping]. split; [done |].
    split; [intros -> payload -> | intros ->]; done.
  - intros m x y ->. simpl.
    rewrite Forall_forall in Hpre. apply Hpre, elem_of_proper_prefixes.
Qed.

End WithBuiltins.

End FrameReaderFacts.

(** ** JavaScript objects *)

Module JSFacts.
Import JS.

Lemma get_set k k' v o :
  get k (set k' v o) = if String.eqb k k' then v else get k o.
Proof.
  induction o as [|[k0 v0] o IH]; simpl.
  - by destruct (String.eqb k k').
  - destruct (String.eqb_spec k' k0) as [->|Hne]; simpl.
    + by destruct (String.eqb k k0).
    + destruct (String.eqb_spec k k0) as [->|Hne'].
      * destruct (String.eqb_spec k0 k'); [congruence | done].
      * done.
Qed.

Lemma get_delete k k' o :
  get k (delete k' o) = if String.eqb k k' then Undefined else get k o.
Proof.
  induction o as [|[k0 v0] o IH]; simpl.
  - by destruct (String.eqb k k').
  - destruct (String.eqb_spec k' k0) as [->|Hne]; simpl.
    + rewrite IH. by destruct (String.eqb k k0).
    + rewrite IH. destruct (String.eqb_spec k k0) as [->|Hne'].
      * destruct (String.eqb_spec k0 k'); [congruence | done].
      * done.
Qed.

Lemma has_set k k' v o :
  has k (set k' v o) = String.eqb k k' || has k o.
Proof.
  induction o as [|[k0 v0] o IH]; simpl.
  - by rewrite orb_false_r.
  - destruct (String.eqb_spec k' k0) as [->|Hne]; simpl.
    + by destruct (String.eqb k k0).
    + rewrite IH. by destruct (String.eqb k k0), (String.eqb k k').
Qed.

Lemma has_delete k k' o :
  has k (delete k' o) = negb (String.eqb k k') && has k o.
Proof.
  induction o as [|[k0 v0] o IH]; simpl.
  - by rewrite andb_false_r.
  - destruct (String.eqb_spec k' k0) as [->|Hne]; simpl.
    + rewrite IH. by destruct (String.eqb k k0).
    + rewrite IH. destruct (String.eqb_spec k k0) as [->|Hne'].
      * destruct (String.eqb_spec k0 k'); [congruence | done].
      * done.
Qed.

Lemma get_default1 k k' d o :
  get k (default1 k' d o) =
  if String.eqb k k'
  then match get k' o with Undefined => d | v => v end
  else get k o.
Proof.
  unfold default1.
  destruct (String.eqb_spec k k') as [->|Hne].
  - destruct (get k' o) eqn:E; rewrite ?get_set, ?String.eqb_refl; done.
  - destruct (get k' o) eqn:E; rewrite ?get_set; try done.
    by destruct (String.eqb_spec k k').
Qed.

Lemma has_default1_ne k k' d o :
  String.eqb k k' = false → has k (default1 k' d o) = has k o.
Proof.
  intros Hne. unfold default1.
  destruct (get k' o); rewrite ?has_set, ?Hne; done.
Qed.

Lemma negotiate_unfold b o :
  Connection.negotiate b o =
  default1 "ignoreUndefined" (Bool true)
    (default1 "useColors" (Bool true)
       (default1 "terminal" (Bool true)
          (default1 "prompt" (Str "> ")
             (set "output" (if b then Host TheSocket else Null)
                (set "useGlobal" (Bool false)
                   (set "input" (Host ThePassThrough)
                      (delete "columns" (delete "key" o)))))))).
Proof. reflexivity. Qed.

Create Rewrite HintDb js_object.

#[export] Hint Rewrite get_default1 get_set get_delete has_set has_delete
  : js_object.
#[export] Hint Rewrite has_default1_ne using reflexivity : js_object.

(** Evaluate reads of a property through the updates of an object. *)
Ltac js_object := autorewrite with js_object; cbn.

End JSFacts.

(** ** Server.onConnection *)

Module ConnectionFacts.
Import Text JS FrameReader Connection TextFacts JSFacts FrameReaderFacts.

Section WithServer.
Context `{Builtins}.
Variable key : string.

Lemma accepted_handshaking : handshaking accepted.
Proof. by exists EmptyString. Qed.

Lemma onData_loop_accumulating lines : ∀ d,
  (∃ d', onData_loop lines (accumulating d) = (accumulating d', None))
  ∨ (∃ r a, onData_loop lines (accumulating d) = (r, Some a)
            ∧ completed r).
Proof.
  induction lines as [|line lines IH]; intros d; simpl.
  - left. by exists d.
  - destruct (JSON_parse (d +:+ line)) as [json| |e].
    + right. destruct lines; do 2 eexists; (split; [reflexivity |]);
        by repeat split.
    + apply (IH (d +:+ line)).
    + right. do 2 eexists. split; [reflexivity |]. by repeat split.
Qed.

Lemma deliver_accumulating ev d :
  (∃ d', deliver ev (accumulating d) = (accumulating d', None))
  ∨ (∃ r a, deliver ev (accumulating d) = (r, Some a) ∧ completed r).
Proof.
  destruct ev as [chunk|e|].
  - rewrite deliver_data_unpiped by done. apply onData_loop_accumulating.
  - right. do 2 eexists. split; [reflexivity |]. by repeat split.
  - right. do 2 eexists. split; [reflexivity |]. by repeat split.
Qed.

Lemma to_reader_eq ev c r cb :
  deliver ev (frame c) = (r, cb) →
  to_reader key ev c =
  match cb with
  | Some a => onHandshake key a (set_frame r c)
  | None => set_frame r c
  end.
Proof. intros Hd. unfold to_reader. by rewrite Hd. Qed.

Lemma onHandshake_frame a c : frame (onHandshake key a c) = frame c.
Proof.
  unfold onHandshake, accept, reject.
  repeat case_match; reflexivity.
Qed.

Lemma onHandshake_timeout a c : timeout (onHandshake key a c) = false.
Proof.
  unfold onHandshake, accept, reject.
  repeat case_match; reflexivity.
Qed.

Lemma onHandshake_settled a c :
  completed (frame c) → settled (onHandshake key a c).
Proof.
  intros Hc. split; [apply onHandshake_timeout |].
  by rewrite onHandshake_frame.
Qed.

Lemma step_settled ev c : settled c → settled (step key ev c).
Proof.
  intros [Ht Hc]. destruct ev as [ev| | | |]; simpl.
  - assert (∀ c0, timeout c0 = false → completed (frame c0) →
                  settled (to_reader key ev c0)) as Hto.
    { intros c0 Ht0 Hc0.
      destruct (deliver_completed ev _ Hc0) as (r & Hd & Hr).
      rewrite (to_reader_eq _ _ _ _ Hd). by split. }
    destruct ev as [chunk|e|]; [by apply Hto | by apply Hto |].
    destruct (Hto (set_socket false c) Ht Hc) as [Ht' Hc'].
    by destruct (session c).
  - by rewrite Ht.
  - destruct (session c); try done.
    unfold onEvalDone. by destruct (socket c).
  - destruct (session c); try done.
    unfold onReplExit. by destruct (output c).
  - destruct (session c); try done.
    unfold onProcessExit. by destruct (output c).
Qed.

(** The phases are closed under every event. *)
Lemma step_inv ev c : inv c → inv (step key ev c).
Proof.
  intros [[d ->]|[[d ->]|Hs]].
  - destruct ev as [ev| | | |]; simpl;
      try (left; by exists d).
    + assert (∀ b, is_Some (snd (deliver ev (accumulating d))) →
                   inv (to_reader key ev
                          (Conn b true (accumulating d) NoSession
                                false []))) as Hsome.
      { intros b [a Ha].
        destruct (deliver ev (accumulating d)) as [r cb] eqn:Hd.
        simpl in Ha. subst cb.
        rewrite (to_reader_eq _ _ r (Some a)) by done.
        right; right. apply onHandshake_settled. simpl.
        destruct (deliver_accumulating ev d)
          as [(d' & Hd')|(r' & a' & Hd' & Hc)]; congruence. }
      destruct ev as [chunk|e|].
      * destruct (deliver_accumulating (Data chunk) d)
          as [(d' & Hd')|(r' & a' & Hd' & Hc)].
        -- rewrite (to_reader_eq _ _ (accumulating d') None) by done.
           left. by exists d'.
        -- apply Hsome. rewrite Hd'. by eexists.
      * apply Hsome. by eexists.
      * apply Hsome. by eexists.
    + right; left. by exists d.
  - destruct ev as [ev| | | |]; simpl;
      try (right; left; by exists d).
    destruct ev as [chunk|e|].
    + right; left. by exists d.
    + right; right. apply onHandshake_settled. by repeat split.
    + right; right. apply onHandshake_settled. by repeat split.
  - right; right. by apply step_settled.
Qed.

Lemma run_snoc evs ev c :
  run key (evs ++ [ev]) c = step key ev (run key evs c).
Proof. unfold run. by rewrite fold_left_app. Qed.

Lemma run_step ev evs c :
  run key (ev :: evs) c = run key evs (step key ev c).
Proof. reflexivity. Qed.

Lemma run_append evs1 evs2 c :
  run key (evs1 ++ evs2) c = run key evs2 (run key evs1 c).
Proof. unfold run. by rewrite fold_left_app. Qed.

Lemma run_inv evs : ∀ c, inv c → inv (run key evs c).
Proof.
  induction evs as [|ev evs IH]; intros c Hc; [done |].
  apply IH. by apply step_inv.
Qed.

Lemma reachable_inv evs : inv (run key evs accepted).
Proof. apply run_inv. left. apply accepted_handshaking. Qed.

(** A handshake value can only be obtained while the connection is
    still in its first phase, where the socket is open and nothing has
    been done yet. *)
Lemma handshake_phase evs chunk r a :
  deliver (Data chunk) (frame (run key evs accepted)) = (r, Some a) →
  (∃ d, run key evs accepted
        = Conn true true (accumulating d) NoSession false [])
  ∧ completed r.
Proof.
  intros Hd.
  destruct (reachable_inv evs) as [[d Hc]|[[d Hc]|[_ Hc]]].
  - split; [by exists d |]. rewrite Hc in Hd. simpl frame in Hd.
    destruct (deliver_accumulating (Data chunk) d)
      as [(d' & Hd')|(r' & a' & Hd' & Hcomp)]; congruence.
  - rewrite Hc in Hd. discriminate.
  - destruct (deliver_completed (Data chunk) _ Hc) as (r' & Hd' & _).
    congruence.
Qed.

(** Without a session, a settled connection does nothing any more. *)
Lemma idle_step ev c :
  settled c → session c = NoSession →
  session (step key ev c) = NoSession
  ∧ effects (step key ev c) = effects c.
Proof.
  intros [Ht Hc] Hs. destruct ev as [ev| | | |]; simpl;
    rewrite ?Ht, ?Hs; try done.
  assert (∀ c0, completed (frame c0) →
                to_reader key ev c0
                = set_frame (deliver ev (frame c0)).1 c0) as Hto.
  { intros c0 Hc0.
    destruct (deliver_completed ev _ Hc0) as (r & Hd & Hr).
    rewrite (to_reader_eq _ _ _ _ Hd). by rewrite Hd. }
  destruct ev as [chunk|e|]; rewrite Hto by done; done.
Qed.

Lemma idle_run evs : ∀ c,
  settled c → session c = NoSession →
  session (run key evs c) = NoSession
  ∧ effects (run key evs c) = effects c.
Proof.
  induction evs as [|ev evs IH]; intros c Hc Hs; [done |].
  destruct (idle_step ev c Hc Hs) as [Hs' He'].
  destruct (IH (step key ev c) (step_settled ev c Hc) Hs') as [? ?].
  rewrite run_step. split; [done | congruence].
Qed.

(** *** The negotiated options *)

Lemma negotiate_strips b o :
  has "key" (negotiate b o) = false ∧ has "columns" (negotiate b o) = false.
Proof. rewrite negotiate_unfold. split; js_object; done. Qed.

Lemma negotiate_immutable o :
  get "input" (negotiate true o) = Host ThePassThrough
  ∧ get "output" (negotiate true o) = Host TheSocket
  ∧ get "useGlobal" (negotiate true o) = Bool false.
Proof. rewrite negotiate_unfold. repeat split; js_object; done. Qed.

Lemma negotiate_defaults b o f d :
  (f, d) ∈ [("prompt", Str "> "); ("terminal", Bool true);
            ("useColors", Bool true); ("ignoreUndefined", Bool true)] →
  get f (negotiate b o) = match get f o with Undefined => d | v => v end.
Proof.
  intros Hin. rewrite negotiate_unfold.
  rewrite !elem_of_cons, elem_of_nil in Hin.
  destruct Hin as [[= -> ->]|[[= -> ->]|[[= -> ->]|[[= -> ->]|[]]]]];
    js_object; done.
Qed.

Lemma negotiate_other b o f :
  f ∉ ["key"; "columns"; "input"; "useGlobal"; "output"; "prompt";
       "terminal"; "useColors"; "ignoreUndefined"] →
  get f (negotiate b o) = get f o.
Proof.
  intros Hf. rewrite negotiate_unfold. autorewrite with js_object.
  repeat match goal with
         | |- context [String.eqb f ?k] =>
             destruct (String.eqb_spec f k) as [->|_];
             [exfalso; apply Hf; set_solver |]
         end.
  done.
Qed.

Lemma blank_prompt_other o f :
  f ≠ "prompt" → get f (blank_prompt o) = get f o
                  ∧ has f (blank_prompt o) = has f o.
Proof.
  intros Hf. unfold blank_prompt.
  destruct (truthy (get "evaluateAndExit" o)); [| done].
  rewrite get_set, has_set.
  by destruct (String.eqb_spec f "prompt").
Qed.

Lemma repl_options_evaluateAndExit b o :
  get "evaluateAndExit" (repl_options b o) = get "evaluateAndExit" o.
Proof.
  unfold repl_options.
  destruct (blank_prompt_other (negotiate b o) "evaluateAndExit") as [-> _];
    [done |].
  apply negotiate_other. rewrite !elem_of_cons, elem_of_nil.
  by intros [|[|[|[|[|[|[|[|[|[]]]]]]]]]].
Qed.

(** What the handshake callback does with an accepted options object
    while the socket is open. *)
Lemma accept_open options r :
  accept options (Conn true false r NoSession false [ClearTimeout])
  = let e := get "evaluateAndExit" options in
    Conn true false r
      (if truthy e then OneShot else Interactive) true
      (ClearTimeout :: columns_effect options
         ++ [StartREPL (repl_options true options);
             if truthy e
             then SubmitEval (eval_command e) (eval_filename e)
             else EnableInteractiveMode]).
Proof.
  unfold accept, columns_effect. cbn [socket].
  rewrite andb_true_r.
  destruct (truthy (get "columns" options)); cbn;
    rewrite repl_options_evaluateAndExit;
    by destruct (truthy (get "evaluateAndExit" options)).
Qed.

(** The step that completes a handshake, spelled out. *)
Lemma handshake_step evs chunk r options :
  deliver (Data chunk) (frame (run key evs accepted))
  = (r, Some (CallbackArgs Null options)) →
  completed r
  ∧ run key (evs ++ [Stream (Data chunk)]) accepted
    = onHandshake key (CallbackArgs Null options)
        (Conn true true r NoSession false []).
Proof.
  intros Hd. destruct (handshake_phase _ _ _ _ Hd) as [[d Hc] Hr].
  split; [done |]. rewrite run_snoc. cbn [step].
  rewrite (to_reader_eq _ _ _ _ Hd). by rewrite Hc.
Qed.

(** C5.  When the handshake completes with a value whose [key] property
    can be read: if the key is not strictly equal to the server's key, the
    server clears the timer, writes the exit banner and ends the socket,
    and whatever happens later on the connection it starts no REPL and
    submits no evaluation (it does nothing at all); if the key is equal,
    a REPL is started and the connection is in one-shot or interactive
    session mode. *)
Theorem key_check (evs later : list event) (chunk : string) (r : reader)
    (options k : value) :
  deliver (Data chunk) (frame (run key evs accepted))
  = (r, Some (CallbackArgs Null options)) →
  get_prop options "key" = Some k →
  let c' := run key (evs ++ [Stream (Data chunk)]) accepted in
  if strict_eq_string k key
  then session c' ≠ NoSession ∧ length (repl_starts (effects c')) = 1%nat
  else effects c'
       = [ClearTimeout; SocketEnd (Some ("Shell exiting..." +:+ nl))]
       ∧ session c' = NoSession
       ∧ effects (run key later c') = effects c'
       ∧ session (run key later c') = NoSession
       ∧ repl_starts (effects (run key later c')) = []
       ∧ evaluations (effects (run key later c')) = [].
Proof.
  intros Hd Hk. destruct (handshake_step _ _ _ _ Hd) as [Hr ->].
  assert (∀ c0,
            c0 = Conn true false r NoSession false [ClearTimeout; banner] →
            effects c0
            = [ClearTimeout; SocketEnd (Some ("Shell exiting..." +:+ nl))]
            ∧ session c0 = NoSession
            ∧ effects (run key later c0) = effects c0
            ∧ session (run key later c0) = NoSession
            ∧ repl_starts (effects (run key later c0)) = []
            ∧ evaluations (effects (run key later c0)) = []) as Hreject.
  { intros c0 ->.
    destruct (idle_run later
                (Conn true false r NoSession false [ClearTimeout; banner]))
      as [Hs He]; [by split | done |].
    rewrite He, Hs. by repeat split. }
  destruct options as [| |b|n|s|xs|o|name message|h];
    simpl in Hk; try discriminate; injection Hk as <-;
    try (apply Hreject; reflexivity).
  cbn zeta. unfold onHandshake. cbn [cb_error cb_json truthy].
  destruct (strict_eq_string (get "key" o) key); [| by apply Hreject].
  change (log ClearTimeout
            (set_timeout false (Conn true true r NoSession false [])))
    with (Conn true false r NoSession false [ClearTimeout]).
  rewrite accept_open. cbn zeta. cbn [session effects].
  split; [by destruct (truthy (get "evaluateAndExit" o)) |].
  unfold columns_effect, repl_starts.
  by destruct (truthy (get "columns" o)),
              (truthy (get "evaluateAndExit" o)).
Qed.

(** C7.  For every accepted handshake, the options after lines 126-147
    (the negotiated options) have no [key] and no [columns] property;
    their [input], [output] and [useGlobal] are the pass-through stream,
    the socket and [false] whatever the client sent; and each of [prompt],
    [terminal], [useColors], [ignoreUndefined] that the client left unset
    has its default, a value the client set being kept.  The one REPL of
    the connection is started with these options (the prompt blanked when
    [evaluateAndExit] is present), which still have no [key] and no
    [columns] and the same [input], [output] and [useGlobal]. *)
Theorem negotiated_options (evs : list event) (chunk : string) (r : reader)
    (options : object) :
  deliver (Data chunk) (frame (run key evs accepted))
  = (r, Some (CallbackArgs Null (Obj options))) →
  strict_eq_string (get "key" options) key = true →
  let negotiated := negotiate true options in
  let started := blank_prompt negotiated in
  let c' := run key (evs ++ [Stream (Data chunk)]) accepted in
  repl_starts (effects c') = [started]
  ∧ (has "key" negotiated = false ∧ has "columns" negotiated = false)
  ∧ (get "input" negotiated = Host ThePassThrough
     ∧ get "output" negotiated = Host TheSocket
     ∧ get "useGlobal" negotiated = Bool false)
  ∧ (∀ f d,
       (f, d) ∈ [("prompt", Str "> "); ("terminal", Bool true);
                 ("useColors", Bool true); ("ignoreUndefined", Bool true)] →
       get f negotiated = match get f options with Undefined => d | v => v end)
  ∧ (has "key" started = false ∧ has "columns" started = false)
  ∧ (get "input" started = Host ThePassThrough
     ∧ get "output" started = Host TheSocket
     ∧ get "useGlobal" started = Bool false).
Proof.
  intros Hd Hk negotiated started c'.
  destruct (negotiate_strips true options) as [Hkey Hcol].
  destruct (negotiate_immutable options) as (Hin & Hout & Hglobal).
  split; [| split; [done | split; [done | split]]].
  - subst c'. destruct (handshake_step _ _ _ _ Hd) as [Hr ->].
    unfold onHandshake. cbn [cb_error cb_json truthy]. rewrite Hk.
    change (log ClearTimeout
              (set_timeout false (Conn true true r NoSession false [])))
      with (Conn true false r NoSession false [ClearTimeout]).
    rewrite accept_open. cbn zeta. cbn [effects].
    unfold columns_effect, repl_starts.
    by destruct (truthy (get "columns" options)),
                (truthy (get "evaluateAndExit" options)).
  - intros f d Hin'. by apply negotiate_defaults.
  - subst started.
    destruct (blank_prompt_other negotiated "key") as [_ ->]; [done |].
    destruct (blank_prompt_other negotiated "columns") as [_ ->]; [done |].
    destruct (blank_prompt_other negotiated "input") as [-> _]; [done |].
    destruct (blank_prompt_other negotiated "output") as [-> _]; [done |].
    destruct (blank_prompt_other negotiated "useGlobal") as [-> _]; [done |].
    done.
Qed.

(** *** One-shot mode *)

(** Between the submission and the completion of the one-shot evaluation
    nothing is written; a "close" sets [socket] to null. *)
Lemma oneshot_quiet_step ev c :
  settled c → session c = OneShot → is_eval_done ev = false →
  session (step key ev c) = OneShot
  ∧ effects (step key ev c) = effects c
  ∧ socket (step key ev c) = socket c && negb (is_close ev).
Proof.
  intros [Ht Hc] Hs Hev. destruct ev as [ev| | | |]; simpl;
    rewrite ?Ht, ?Hs, ?andb_true_r; try done.
  assert (∀ c0, completed (frame c0) →
                to_reader key ev c0
                = set_frame (deliver ev (frame c0)).1 c0) as Hto.
  { intros c0 Hc0.
    destruct (deliver_completed ev _ Hc0) as (r & Hd & Hr).
    rewrite (to_reader_eq _ _ _ _ Hd). by rewrite Hd. }
  destruct ev as [chunk|e|]; rewrite Hto by done; simpl;
    rewrite ?andb_true_r, ?andb_false_r; done.
Qed.

Lemma oneshot_quiet_run evs : ∀ c,
  settled c → session c = OneShot → existsb is_eval_done evs = false →
  session (run key evs c) = OneShot
  ∧ effects (run key evs c) = effects c
  ∧ socket (run key evs c) = socket c && negb (existsb is_close evs).
Proof.
  induction evs as [|ev evs IH]; intros c Hc Hs Hevs.
  - simpl. by rewrite andb_true_r.
  - simpl in Hevs. apply orb_false_elim in Hevs as [Hev Hevs].
    destruct (oneshot_quiet_step ev c Hc Hs Hev) as (Hs' & He' & Hsock').
    destruct (IH (step key ev c) (step_settled ev c Hc) Hs' Hevs)
      as (Hs'' & He'' & Hsock'').
    rewrite run_step. split; [done |]. split; [congruence |].
    rewrite Hsock'', Hsock'. simpl.
    by destruct (socket c), (is_close ev).
Qed.

(** C6, amended.  When the handshake carries a truthy [evaluateAndExit]:
    the REPL is started with an empty prompt, the server submits exactly
    one evaluation, of the given command with the given file name or
    ["<meteor shell>"], and neither enables interactive mode nor writes the
    exit banner.  When that evaluation completes, the server ends the
    socket with one line, the JSON text of [{error: String(error), code: 1}]
    for a truthy error and of [{result: result}] otherwise, provided no
    "close" has been emitted in the meantime; after a "close" it writes
    nothing. *)
Theorem one_shot (evs mid : list event) (chunk : string) (r : reader)
    (options : object) (error result : value) :
  deliver (Data chunk) (frame (run key evs accepted))
  = (r, Some (CallbackArgs Null (Obj options))) →
  strict_eq_string (get "key" options) key = true →
  truthy (get "evaluateAndExit" options) = true →
  existsb is_eval_done mid = false →
  let e := get "evaluateAndExit" options in
  let c' := run key (evs ++ [Stream (Data chunk)]) accepted in
  let reply := if truthy error
               then Obj [("error", Str (ToString error)); ("code", Num 1)]
               else Obj [("result", result)] in
  effects c'
  = ClearTimeout :: columns_effect options
      ++ [StartREPL (repl_options true options);
          SubmitEval (eval_command e) (eval_filename e)]
  ∧ get "prompt" (repl_options true options) = Str EmptyString
  ∧ session c' = OneShot
  ∧ effects (run key (mid ++ [EvalDone error result]) c')
    = if existsb is_close mid
      then effects c'
      else effects c' ++ [SocketEnd (Some (JSON_stringify reply +:+ nl))].
Proof.
  intros Hd Hk He Hmid e c' reply. subst c' e.
  destruct (handshake_step _ _ _ _ Hd) as [Hr ->].
  unfold onHandshake. cbn [cb_error cb_json truthy]. rewrite Hk.
  change (log ClearTimeout
            (set_timeout false (Conn true true r NoSession false [])))
    with (Conn true false r NoSession false [ClearTimeout]).
  rewrite accept_open. cbn zeta. rewrite He.
  set (c' := Conn true false r OneShot true _).
  split; [done |]. split.
  { unfold repl_options, blank_prompt.
    destruct (negotiate_other true options "evaluateAndExit") as [].
    - rewrite !elem_of_cons, elem_of_nil.
      by intros [|[|[|[|[|[|[|[|[|[]]]]]]]]]].
    - rewrite He. by rewrite get_set. }
  split; [done |].
  destruct (oneshot_quiet_run mid c') as (Hs & Heff & Hsock);
    [by split | done | done |].
  rewrite run_snoc. cbn [step]. rewrite Hs. unfold onEvalDone.
  rewrite Hsock. cbn [socket c' andb].
  destruct (existsb is_close mid); cbn [negb]; [done |].
  cbn [log effects]. rewrite Heff. done.
Qed.

(** *** The handshake deadline *)




(** *** Interactive mode *)

(** C9.  In interactive mode with the output stream still open, the
    REPL's "exit" makes the server write the line [Shell exiting...] and
    then end the stream, whereas the process's "exit" makes it end the
    stream and write nothing. *)
Theorem exit_signalling (evs : list event) :
  session (run key evs accepted) = Interactive →
  output (run key evs accepted) = true →
  effects (run key (evs ++ [ReplExit]) accepted)
  = effects (run key evs accepted)
      ++ [SocketWrite ("Shell exiting..." +:+ nl); SocketEnd None]
  ∧ effects (run key (evs ++ [ProcessExit]) accepted)
    = effects (run key evs accepted) ++ [SocketEnd None].
Proof.
  intros Hs Ho. rewrite !run_snoc. cbn [step]. rewrite Hs.
  unfold onReplExit, onProcessExit. rewrite Ho. cbn [log effects].
  by rewrite <- app_assoc.
Qed.

(** *** A null handshake *)

(** C10.  When the client sends [null] and a newline and [JSON.parse]
    reads [null] as the value null, readJSONFromStream reports success
    with null as the options, the handshake callback clears the timer and
    fails with a TypeError reading [options.key], and the connection gets
    neither the exit banner nor a session, whatever happens later. *)
Theorem null_handshake (later : list event) :
  JSON_parse "null" = Parsed Null →
  let c := run key (Stream (Data ("null" +:+ nl)) :: later) accepted in
  (feed ["null" +:+ nl]).2 = [CallbackArgs Null Null]
  ∧ effects c = [ClearTimeout; UncaughtTypeError]
  ∧ session c = NoSession.
Proof.
  intros Hp c. subst c.
  assert (deliver (Data ("null" +:+ nl)) FrameReader.start
          = (piping "null" EmptyString, Some (CallbackArgs Null Null)))
    as Hd.
  { change FrameReader.start with (accumulating EmptyString).
    destruct (onData_header "null" nl EmptyString Null) as [Hd|Hd];
      [done | done | done | exact Hd |].
    by destruct Hd as (x & after & [= <- <-] & Hx). }
  split.
  - unfold feed. cbn [map]. rewrite FrameReaderFacts.run_cons, Hd. done.
  - rewrite run_step. cbn [step].
    rewrite (to_reader_eq _ accepted _ _ Hd).
    destruct (idle_run later
                (onHandshake key (CallbackArgs Null Null)
                   (set_frame (piping "null" EmptyString) accepted)))
      as [Hs He]; [by repeat split | done |].
    by rewrite He, Hs.
Qed.

End WithServer.

End ConnectionFacts.

(** ** Server.initializeHistory *)

Module HistoryFacts.
Import Text History.

Lemma pop_nil : pop [] = None.
Proof. reflexivity. Qed.

Lemma pop_snoc (lines : list string) (line : string) :
  pop (lines ++ [line]) = Some (line, lines).
Proof.
  unfold pop. rewrite reverse_app. simpl. by rewrite reverse_involutive.
Qed.

(** With one unit of fuel per line the loop runs to its end, and it does
    what [scan] does on the reversed array. *)
Lemma load_scan (fuel : nat) : ∀ lines seenLines history,
  (length lines ≤ fuel)%nat →
  load fuel lines seenLines history
  = history ++ scan (reverse lines) seenLines.
Proof.
  induction fuel as [|fuel IH]; intros lines seen history Hlen.
  - destruct lines; simpl in *; [by rewrite app_nil_r | lia].
  - destruct lines as [|line lines _] using rev_ind.
    + simpl. by rewrite app_nil_r.
    + simpl. rewrite pop_snoc, reverse_app. simpl.
      rewrite length_app in Hlen. simpl in Hlen.
      destruct (fresh line seen).
      * rewrite IH by lia. by rewrite <- app_assoc.
      * by rewrite IH by lia.
Qed.

Lemma fresh_empty line : fresh line ∅ = negb (blank line).
Proof.
  unfold fresh, blank.
  rewrite bool_decide_eq_false_2 by set_solver.
  by destruct (String.eqb line EmptyString), (has_non_space line).
Qed.

Lemma fresh_cases line seen :
  fresh line seen = negb (blank line) && negb (bool_decide (line ∈ seen)).
Proof.
  unfold fresh, blank.
  by destruct (String.eqb line EmptyString), (has_non_space line).
Qed.

Lemma elem_of_scan x lines : ∀ seen,
  x ∈ scan lines seen ↔ x ∈ lines ∧ blank x = false ∧ x ∉ seen.
Proof.
  induction lines as [|line lines IH]; intros seen; simpl.
  - rewrite elem_of_nil. tauto.
  - rewrite fresh_cases.
    destruct (blank line) eqn:Hb; simpl.
    + rewrite IH, elem_of_cons.
      split; [intros (? & ? & ?); auto |].
      intros ([->|?] & ? & ?); [congruence | auto].
    + destruct (bool_decide_reflect (line ∈ seen)) as [Hin|Hin]; simpl.
      * rewrite IH, elem_of_cons.
        split; [intros (? & ? & ?); auto |].
        intros ([->|?] & ? & ?); [done | auto].
      * rewrite !elem_of_cons, IH, elem_of_union, elem_of_singleton.
        split.
        -- intros [->|(? & ? & Hn)]; [auto |].
           split; [auto |]. split; [done |]. intros ?. apply Hn. auto.
        -- intros ([->|?] & ? & Hn); [auto |].
           destruct (decide (x = line)) as [->|Hne]; [auto |].
           right. split; [done |]. split; [done |]. intros [?|?]; auto.
Qed.

Lemma scan_snoc line lines : ∀ seen,
  scan (lines ++ [line]) seen
  = scan lines seen
    ++ (if fresh line seen && negb (bool_decide (line ∈ scan lines seen))
        then [line] else []).
Proof.
  induction lines as [|x lines IH]; intros seen; cbn [scan app].
  - rewrite (bool_decide_eq_false_2 (line ∈ [])) by apply not_elem_of_nil.
    rewrite andb_true_r. by destruct (fresh line seen).
  - destruct (fresh x seen) eqn:Hx.
    + rewrite IH. cbn [app]. do 2 f_equal.
      rewrite !fresh_cases.
      destruct (blank line); cbn [negb andb]; [done |].
      destruct (decide (line = x)) as [->|Hne].
      * rewrite (bool_decide_eq_true_2 (x ∈ {[x]} ∪ seen)) by set_solver.
        rewrite (bool_decide_eq_true_2 (x ∈ x :: _)) by set_solver.
        cbn [negb andb]. by rewrite andb_false_r.
      * rewrite (bool_decide_ext (line ∈ {[x]} ∪ seen) (line ∈ seen))
          by set_solver.
        rewrite (bool_decide_ext (line ∈ x :: scan lines ({[x]} ∪ seen))
                   (line ∈ scan lines ({[x]} ∪ seen))) by set_solver.
        done.
    + by rewrite IH.
Qed.

(** The loop against the recall list in the words of the
    specification. *)
Lemma scan_most_recent_only (lines : list string) :
  reverse (scan (reverse lines) ∅) = most_recent_only lines.
Proof.
  induction lines as [|line lines IH]; [done |].
  rewrite reverse_cons, scan_snoc, reverse_app, IH.
  cbn [most_recent_only]. rewrite fresh_empty.
  destruct (blank line) eqn:Hb; cbn [negb andb orb]; [done |].
  assert (line ∈ scan (reverse lines) ∅ ↔ line ∈ lines) as Hiff.
  { rewrite elem_of_scan, elem_of_reverse. set_solver. }
  rewrite (bool_decide_ext _ _ Hiff).
  by destruct (bool_decide (line ∈ lines)).
Qed.

Lemma initializeHistory_scan (file : string) :
  initializeHistory file None = scan (reverse (split file)) ∅.
Proof. unfold initializeHistory. by rewrite load_scan. Qed.

(** C3.  Loading the history file [a\nb\na\nc\n] leaves the recall list
    [c, a, b], newest line first, that is [b, a, c] from the oldest
    line to the newest.  For every history file the recall list, read from
    the oldest line to the newest, consists of the non-blank lines of the
    file, each at its most recent occurrence only, in the order of the
    file; a recall list that was empty gives the same as one that was not
    set. *)
Theorem history_recall :
  let file := "a" +:+ nl +:+ "b" +:+ nl +:+ "a" +:+ nl +:+ "c" +:+ nl in
  initializeHistory file None = ["c"; "a"; "b"]
  ∧ oldest_to_newest (initializeHistory file None) = ["b"; "a"; "c"]
  ∧ (∀ text,
       oldest_to_newest (initializeHistory text None)
       = most_recent_only (split text)
       ∧ initializeHistory text (Some []) = initializeHistory text None).
Proof.
  split; [by vm_compute |]. split; [by vm_compute |].
  intros text. split; [| done].
  unfold oldest_to_newest. rewrite initializeHistory_scan.
  apply scan_most_recent_only.
Qed.

End HistoryFacts.

(** ** The evaluation pipeline *)

Module EvalPipelineFacts.
Import EvalPipeline.

Lemma begun_app (t1 t2 : list observation) :
  begun (t1 ++ t2) = begun t1 ++ begun t2.
Proof. apply omap_app. Qed.

Lemma then_jobs_app (js1 js2 : list job) :
  then_jobs (js1 ++ js2) = then_jobs js1 ++ then_jobs js2.
Proof. apply omap_app. Qed.

Lemma total_weight_app (js1 js2 : list job) :
  total_weight (js1 ++ js2) = (total_weight js1 + total_weight js2)%nat.
Proof.
  induction js1 as [|j js1 IH]; simpl; [done |]. rewrite IH. lia.
Qed.

(** The checkpoint empties the queue, and it enters the evaluators of the
    waiting [then] jobs in the order of the queue. *)
Lemma drain_spec (fuel : nat) : ∀ l,
  (total_weight (microtasks l) ≤ fuel)%nat →
  microtasks (drain fuel l) = []
  ∧ begun (trace (drain fuel l))
    = begun (trace l) ++ then_jobs (microtasks l).
Proof.
  induction fuel as [|fuel IH]; intros [q sus tr] Hw; simpl in *.
  - destruct q as [|[r|r] q]; simpl in *; [| lia | lia].
    by rewrite app_nil_r.
  - destruct q as [|[r|r] q]; simpl in *.
    + by rewrite app_nil_r.
    + destruct (behaviour r); simpl.
      * destruct (IH (Loop q sus (tr ++ [Begin (rid r); Done (rid r)])))
          as [-> ->]; [simpl; lia |].
        simpl. rewrite begun_app. simpl. by rewrite <- app_assoc.
      * destruct (IH (Loop q (sus ++ [rid r]) (tr ++ [Begin (rid r)])))
          as [-> ->]; [simpl; lia |].
        simpl. rewrite begun_app. simpl. by rewrite <- app_assoc.
      * destruct (IH (Loop (q ++ [CatchJob r]) sus (tr ++ [Begin (rid r)])))
          as [-> ->]; [simpl; rewrite total_weight_app; simpl; lia |].
        simpl. rewrite begun_app, then_jobs_app. simpl.
        by rewrite app_nil_r, <- app_assoc.
    + destruct (IH (Loop q sus (tr ++ [Done (rid r)])))
        as [-> ->]; [simpl; lia |].
      simpl. rewrite begun_app. simpl. by rewrite app_nil_r.
Qed.

Lemma submit_all (rs : list request) : ∀ l,
  fold_left (λ l r, wrappedDefaultEval r l) rs l
  = Loop (microtasks l ++ map ThenJob rs) (suspended l) (trace l).
Proof.
  induction rs as [|r rs IH]; intros [q sus tr]; simpl.
  - by rewrite app_nil_r.
  - rewrite IH. simpl. by rewrite <- app_assoc.
Qed.

Lemma then_jobs_map (rs : list request) :
  then_jobs (map ThenJob rs) = map rid rs.
Proof. induction rs as [|r rs IH]; simpl; [done | by rewrite <- IH]. Qed.

Lemma run_last_turn (ts : list turn) (t : turn) :
  run (ts ++ [t]) = run_turn t (run ts).
Proof. unfold run. by rewrite fold_left_app. Qed.

Lemma submitted_snoc (ts : list turn) (t : turn) :
  submitted (ts ++ [t]) = submitted ts ++ submitted [t].
Proof. unfold submitted. by rewrite flat_map_app. Qed.

Lemma run_turn_fifo (t : turn) (l : loop) :
  microtasks l = [] →
  microtasks (run_turn t l) = []
  ∧ begun (trace (run_turn t l)) = begun (trace l) ++ submitted [t].
Proof.
  intros Hq. destruct t as [rs|id]; simpl.
  - unfold checkpoint. rewrite submit_all, Hq. simpl.
    destruct (drain_spec (total_weight (map ThenJob rs))
                (Loop (map ThenJob rs) (suspended l) (trace l)))
      as [-> ->]; [done |].
    simpl. by rewrite then_jobs_map, app_nil_r.
  - destruct (bool_decide (id ∈ suspended l)); simpl.
    + rewrite begun_app. simpl. by rewrite !app_nil_r.
    + by rewrite app_nil_r.
Qed.

Lemma run_fifo (ts : list turn) :
  microtasks (run ts) = [] ∧ begun (trace (run ts)) = submitted ts.
Proof.
  induction ts as [|t ts [IHq IHb]] using rev_ind; [done |].
  rewrite run_last_turn, submitted_snoc.
  destruct (run_turn_fifo t (run ts) IHq) as [-> ->]. by rewrite IHb.
Qed.








End EvalPipelineFacts.

(** ** The model at work on concrete connections *)

Module Scenarios.
Import Text JS FrameReader Connection EvalPipeline Samples.
Import FrameReaderFacts ConnectionFacts EvalPipelineFacts.

#[local] Existing Instance JSONData.builtins.

(** The framing example of the specification. *)
Lemma header_then_payload_witness :
  let rest := nl +:+ "foo" +:+ nl +:+ "bar" in
  JSON_parse (Lines.strip_newlines hello)
  = Parsed (Obj [("key", Str "abc")])
  ∧ Forall (λ p, JSON_parse (Lines.strip_newlines p) = SyntaxError)
      (proper_prefixes hello)
  ∧ concat cut_inside = hello +:+ rest
  ∧ Forall (λ c, Buffer.toString c = c)
      (header_chunks (String.length hello) cut_inside)
  ∧ header_ends_chunk (String.length hello) cut_inside = false
  ∧ (read cut_inside).2 = [CallbackArgs Null (Obj [("key", Str "abc")])]
  ∧ passthrough (read cut_inside).1 = "foo" +:+ nl +:+ "bar".
Proof.
  intros rest.
  assert (JSON_parse (Lines.strip_newlines hello)
          = Parsed (Obj [("key", Str "abc")])) as H1 by reflexivity.
  assert (Forall (λ p, JSON_parse (Lines.strip_newlines p) = SyntaxError)
            (proper_prefixes hello)) as H2.
  { let l := eval vm_compute in (proper_prefixes hello) in
    change (proper_prefixes hello) with l.
    repeat (constructor; [reflexivity |]). constructor. }
  assert (concat cut_inside = hello +:+ rest) as H3 by reflexivity.
  assert (Forall (λ c, Buffer.toString c = c)
            (header_chunks (String.length hello) cut_inside)) as H4.
  { let l := eval vm_compute in
      (header_chunks (String.length hello) cut_inside) in
    change (header_chunks (String.length hello) cut_inside) with l.
    repeat (constructor; [reflexivity |]). constructor. }
  assert (header_ends_chunk (String.length hello) cut_inside = false)
    as H5 by reflexivity.
  destruct (header_then_payload hello (Obj [("key", Str "abc")])
              rest cut_inside H1 H2 H3 H4
              (or_intror (ex_intro _ ("foo" +:+ nl +:+ "bar") eq_refl)))
    as (Hcb & Hbehind & _).
  repeat (split; [assumption |]).
  exact (Hbehind H5 ("foo" +:+ nl +:+ "bar") eq_refl).
Defined.

(** C2 as stated fails, in five ways.  (1) The same bytes, cut right
    behind the header instead of inside it, put the header's newline
    into the pass-through stream, which then holds a newline, [foo], a
    newline and [bar], and not [foo], a newline and [bar].  (2) The JSON
    document [12], cut between its digits, is read as the value 1, the
    rest of the document going into the pass-through stream.  (3) A
    payload whose character of two bytes C3 A9 is cut by the end of the
    chunk that completes the header is forwarded altered: that chunk is
    decoded by itself, so that the pass-through stream gets EF BF BD,
    the replacement character, for the byte C3, and then the byte A9 of
    the next chunk as it is.  (4) A header cut inside such a character
    is read with two replacement characters in its place.  (5) A header
    with a payload right behind it, in one chunk, is never extracted;
    cut between the two, it is. *)
Lemma chunk_boundary_changes_payload :
  (concat cut_behind = concat cut_inside
   ∧ (read cut_inside).2 = [CallbackArgs Null (Obj [("key", Str "abc")])]
   ∧ passthrough (read cut_inside).1 = "foo" +:+ nl +:+ "bar"
   ∧ (read cut_behind).2 = [CallbackArgs Null (Obj [("key", Str "abc")])]
   ∧ passthrough (read cut_behind).1 = nl +:+ "foo" +:+ nl +:+ "bar"
   ∧ passthrough (read cut_behind).1 ≠ "foo" +:+ nl +:+ "bar")
  ∧ (concat cut_number = "12" +:+ nl +:+ "foo"
     ∧ JSON_parse "12" = Parsed (Num 12)
     ∧ (read cut_number).2 = [CallbackArgs Null (Num 1)]
     ∧ passthrough (read cut_number).1 = "2" +:+ nl +:+ "foo")
  ∧ (concat cut_in_character
     = hello +:+ nl +:+ "caf"
       +:+ String "195"%char (String "169"%char nl)
     ∧ (read cut_in_character).2
       = [CallbackArgs Null (Obj [("key", Str "abc")])]
     ∧ passthrough (read cut_in_character).1
       = "caf" +:+ Buffer.REPLACEMENT +:+ String "169"%char nl
     ∧ passthrough (read cut_in_character).1
       ≠ "caf" +:+ String "195"%char (String "169"%char nl))
  ∧ (concat cut_in_header = accented +:+ nl
     ∧ JSON_parse accented
       = Parsed
           (Obj [("key",
                  Str ("caf" +:+ String "195"%char
                                 (String "169"%char EmptyString)))])
     ∧ (read cut_in_header).2
       = [CallbackArgs Null
            (Obj [("key",
                   Str ("caf" +:+ Buffer.REPLACEMENT
                        +:+ Buffer.REPLACEMENT))])])
  ∧ (concat glued = concat glued_cut
     ∧ (read glued).2 = []
     ∧ (read glued_cut).2
       = [CallbackArgs Null (Obj [("key", Str "abc")])]
     ∧ passthrough (read glued_cut).1 = "foo").
Proof. by vm_compute. Qed.

(** A header, an error and a close: one callback, one detachment. *)
Lemma callback_at_most_once_witness :
  let evs := [Data hello; StreamError (ErrorObj "Error" "reset"); Close] in
  let r := (FrameReader.run evs start).1 in
  length (FrameReader.run evs start).2 = 1%nat
  ∧ data_listener r = false
  ∧ error_listener r = false
  ∧ close_listener r = false
  ∧ (FrameReader.run [Close; Data hello] r).2 = []
  ∧ detached (FrameReader.run [Close; Data hello] r).1 = 1%nat.
Proof.
  intros evs r.
  assert (length (FrameReader.run evs start).2 = 1%nat) as H1
    by reflexivity.
  split; [exact H1 |].
  exact (proj2 (proj2 (callback_at_most_once evs [Close; Data hello])) H1).
Defined.

(** A stale key is turned away. *)
Lemma key_check_witness :
  let chunk := wrong_key +:+ nl in
  let r := piping wrong_key EmptyString in
  let options := Obj [("key", Str "abd")] in
  let later := [Stream (Data "1+1"); TimerFires; Stream Close] in
  let c' := serve ([] ++ [Stream (Data chunk)]) accepted in
  deliver (Data chunk) (frame (serve [] accepted))
  = (r, Some (CallbackArgs Null options))
  ∧ get_prop options "key" = Some (Str "abd")
  ∧ effects c'
    = [ClearTimeout; SocketEnd (Some ("Shell exiting..." +:+ nl))]
  ∧ session c' = NoSession
  ∧ effects (serve later c') = effects c'
  ∧ session (serve later c') = NoSession
  ∧ repl_starts (effects (serve later c')) = []
  ∧ evaluations (effects (serve later c')) = [].
Proof.
  intros chunk r options later c'.
  assert (deliver (Data chunk) (frame (serve [] accepted))
          = (r, Some (CallbackArgs Null options))) as H1 by reflexivity.
  assert (get_prop options "key" = Some (Str "abd")) as H2 by reflexivity.
  split; [exact H1 |]. split; [exact H2 |].
  exact (key_check secret [] later chunk r options (Str "abd") H1 H2).
Defined.

(** Client values for [input] and [useGlobal] are overwritten, a client
    value for [terminal] is kept. *)
Lemma negotiated_options_witness :
  let chunk := overriding +:+ nl in
  let r := piping overriding EmptyString in
  let negotiated := negotiate true overriding_options in
  deliver (Data chunk) (frame (serve [] accepted))
  = (r, Some (CallbackArgs Null (Obj overriding_options)))
  ∧ strict_eq_string (get "key" overriding_options) secret = true
  ∧ repl_starts (effects (serve ([] ++ [Stream (Data chunk)]) accepted))
    = [blank_prompt negotiated]
  ∧ has "key" negotiated = false
  ∧ get "input" negotiated = Host ThePassThrough
  ∧ get "useGlobal" negotiated = Bool false
  ∧ get "terminal" negotiated = Bool false
  ∧ get "prompt" negotiated = Str "> ".
Proof.
  intros chunk r negotiated.
  assert (deliver (Data chunk) (frame (serve [] accepted))
          = (r, Some (CallbackArgs Null (Obj overriding_options)))) as H1
    by reflexivity.
  assert (strict_eq_string (get "key" overriding_options) secret = true)
    as H2 by reflexivity.
  split; [exact H1 |]. split; [exact H2 |].
  destruct (negotiated_options secret [] chunk r overriding_options H1 H2)
    as (Hs & [Hk _] & (Hi & _ & Hg) & Hd & _).
  split; [exact Hs |]. split; [exact Hk |]. split; [exact Hi |].
  split; [exact Hg |].
  split; [apply (Hd "terminal" (Bool true)) |
          apply (Hd "prompt" (Str "> "))];
    rewrite !elem_of_cons; auto.
Defined.

(** The one-shot example of the specification: the command [1+1],
    evaluated to 2, is answered by the line [{"result":2}]. *)
Lemma one_shot_witness :
  let chunk := one_plus_one +:+ nl in
  let r := piping one_plus_one EmptyString in
  let mid := [Stream (Data "ignored"); TimerFires] in
  let c' := serve ([] ++ [Stream (Data chunk)]) accepted in
  deliver (Data chunk) (frame (serve [] accepted))
  = (r, Some (CallbackArgs Null (Obj one_plus_one_options)))
  ∧ strict_eq_string (get "key" one_plus_one_options) secret = true
  ∧ truthy (get "evaluateAndExit" one_plus_one_options) = true
  ∧ existsb is_eval_done mid = false
  ∧ evaluations (effects c') = [(Str "1+1", Str "<meteor shell>")]
  ∧ session c' = OneShot
  ∧ written (effects (serve (mid ++ [EvalDone Null (Num 2)]) c'))
    = ["{" +:+ quoted "result" +:+ ":2}" +:+ nl].
Proof.
  intros chunk r mid c'.
  assert (deliver (Data chunk) (frame (serve [] accepted))
          = (r, Some (CallbackArgs Null (Obj one_plus_one_options)))) as H1
    by reflexivity.
  assert (strict_eq_string (get "key" one_plus_one_options) secret = true)
    as H2 by reflexivity.
  assert (truthy (get "evaluateAndExit" one_plus_one_options) = true)
    as H3 by reflexivity.
  assert (existsb is_eval_done mid = false) as H4 by reflexivity.
  repeat (split; [assumption |]).
  destruct (one_shot secret [] mid chunk r one_plus_one_options
              Null (Num 2) H1 H2 H3 H4) as (He & _ & Hs & Hw).
  fold (serve ([] ++ [Stream (Data chunk)]) accepted) in He, Hs, Hw.
  fold c' in He, Hs, Hw.
  split; [by rewrite He |]. split; [exact Hs |].
  unfold serve. rewrite Hw, He. reflexivity.
Defined.

(** The other one-shot example of the specification: a command that
    throws [Error: x] is answered by the line
    [{"error":"Error: x","code":1}]. *)
Lemma one_shot_error_reply :
  let c' := serve [Stream (Data (one_plus_one +:+ nl))] accepted in
  written (effects (serve [EvalDone (ErrorObj "Error" "x") Undefined] c'))
  = ["{" +:+ quoted "error" +:+ ":" +:+ quoted "Error: x" +:+ ","
     +:+ quoted "code" +:+ ":1}" +:+ nl].
Proof. by vm_compute. Qed.

(** C6 as stated fails: the client hangs up while the evaluation runs,
    and when the evaluation completes the server writes nothing. *)
Lemma hang_up_before_completion :
  let c' := serve [Stream (Data (one_plus_one +:+ nl))] accepted in
  session c' = OneShot
  ∧ evaluations (effects c') = [(Str "1+1", Str "<meteor shell>")]
  ∧ written (effects (serve [Stream Close; EvalDone Null (Num 2)] c')) = [].
Proof. by vm_compute. Qed.



(** An interactive session whose REPL exits, or whose process exits. *)
Lemma exit_signalling_witness :
  let evs := [Stream (Data (hello +:+ nl))] in
  session (serve evs accepted) = Interactive
  ∧ output (serve evs accepted) = true
  ∧ written (effects (serve (evs ++ [ReplExit]) accepted))
    = ["Shell exiting..." +:+ nl]
  ∧ written (effects (serve (evs ++ [ProcessExit]) accepted)) = [].
Proof.
  intros evs.
  assert (session (serve evs accepted) = Interactive) as H1 by reflexivity.
  assert (output (serve evs accepted) = true) as H2 by reflexivity.
  split; [exact H1 |]. split; [exact H2 |].
  unfold serve in *.
  destruct (exit_signalling secret evs H1 H2) as [-> ->].
  by split.
Defined.

(** The bytes [null] and a newline. *)
Lemma null_handshake_witness :
  let later := [TimerFires; Stream (Data "1+1"); Stream Close] in
  let c := serve (Stream (Data ("null" +:+ nl)) :: later) accepted in
  JSON_parse "null" = Parsed Null
  ∧ (read ["null" +:+ nl]).2 = [CallbackArgs Null Null]
  ∧ effects c = [ClearTimeout; UncaughtTypeError]
  ∧ session c = NoSession.
Proof.
  intros later c.
  assert (JSON_parse "null" = Parsed Null) as H1 by reflexivity.
  split; [exact H1 |].
  exact (null_handshake secret later H1).
Defined.



End Scenarios.

(** ** readJSONFromStream: what becomes of every byte *)

Module FramingFacts.
Import Text Lines JS FrameReader Wire TextFacts LinesFacts FrameReaderFacts.

Section WithBuiltins.
Context `{Builtins}.

(** The loop of [onData] stops at the first piece that completes a text
    [JSON.parse] accepts, or at the first piece on which it throws
    something else than a SyntaxError; the pieces before are accumulated
    without their newlines, the pieces behind are joined again and
    written into the pass-through stream, or dropped after the throw. *)
Lemma onData_loop_cases (lines : list string) : ∀ d,
  onData_loop lines (accumulating d)
  = (accumulating (d +:+ concat lines), None)
  ∨ (∃ j pre rest,
       lines = pre ++ rest
       ∧ JSON_parse (d +:+ concat pre) = Parsed j
       ∧ onData_loop lines (accumulating d)
         = (piping (d +:+ concat pre) (join rest),
            Some (CallbackArgs Null j)))
  ∨ (∃ e pre rest,
       lines = pre ++ rest
       ∧ JSON_parse (d +:+ concat pre) = OtherError e
       ∧ onData_loop lines (accumulating d)
         = (failed (d +:+ concat pre), Some (CallbackArgs e Undefined))).
Proof.
  induction lines as [|line lines IH]; intros d.
  - left. simpl. by rewrite append_empty_r.
  - cbn [onData_loop]. cbn [dataSoFar accumulating set_dataSoFar].
    destruct (JSON_parse (d +:+ line)) as [j| |e] eqn:Hp.
    + right; left. exists j, [line], lines. simpl.
      rewrite append_empty_r. split; [done |]. split; [done |].
      by destruct lines.
    + change (set_dataSoFar (d +:+ line) (accumulating d))
        with (accumulating (d +:+ line)).
      destruct (IH (d +:+ line))
        as [Hw|[(j & pre & rest & -> & Hj & Hr)
               |(e & pre & rest & -> & He & Hr)]].
      * left. rewrite Hw. simpl. by rewrite append_assoc.
      * right; left. exists j, (line :: pre), rest. simpl.
        rewrite <- append_assoc. by rewrite Hr.
      * right; right. exists e, (line :: pre), rest. simpl.
        rewrite <- append_assoc. by rewrite Hr.
    + right; right. exists e, [line], lines. simpl.
      by rewrite append_empty_r.
Qed.

(** A reader that failed ignores all later data. *)
Lemma run_failed (chunks : list string) (d : string) :
  run (map Data chunks) (failed d) = (failed d, []).
Proof.
  induction chunks as [|c cs IH]; [done |].
  change (map Data (c :: cs)) with (Data c :: map Data cs).
  rewrite run_cons. simpl. by rewrite IH.
Qed.

Lemma run_chunks (chunks : list string) : ∀ d,
  let res := run (map Data chunks) (accumulating d) in
  (res.2 = []
   ∧ res.1
     = accumulating
         (d +:+ strip_newlines (concat (map Buffer.toString chunks))))
  ∨ (∃ j pre c later,
       chunks = pre ++ c :: later
       ∧ (run (map Data pre) (accumulating d)).2 = []
       ∧ res.2 = [CallbackArgs Null j]
       ∧ JSON_parse (dataSoFar res.1) = Parsed j
       ∧ piped res.1 = true
       ∧ dataSoFar res.1 +:+ strip_newlines (passthrough res.1)
         = d +:+ strip_newlines
                   (concat (map Buffer.toString (pre ++ [c]))
                    +:+ concat later))
  ∨ (∃ e, res.2 = [CallbackArgs e Undefined]
          ∧ JSON_parse (dataSoFar res.1) = OtherError e
          ∧ piped res.1 = false
          ∧ passthrough res.1 = EmptyString).
Proof.
  induction chunks as [|c cs IH]; intros d.
  - left. simpl. by rewrite append_empty_r.
  - cbn zeta.
    change (map Data (c :: cs)) with (Data c :: map Data cs).
    rewrite run_cons, deliver_data_unpiped by done. unfold onData.
    destruct (onData_loop_cases (split (Buffer.toString c)) d)
      as [Hw|[(j & pre & rest & Hl & Hj & Hr)
             |(e & pre & rest & Hl & He & Hr)]].
    + rewrite Hw. cbn [fst snd]. rewrite <- strip_split.
      destruct (IH (d +:+ strip_newlines (Buffer.toString c)))
        as [[Hn Hr]
           |[(j & pre & c' & later & -> & Hpre & Hn & Hj & Hp & Hs)
            |(e & Hn & He & Hp & Hs)]].
      * left. rewrite Hn, Hr. cbn [map concat].
        by rewrite strip_append, append_assoc.
      * right; left. exists j, (c :: pre), c', later.
        split; [done |]. split.
        { change (map Data (c :: pre)) with (Data c :: map Data pre).
          rewrite run_cons, deliver_data_unpiped by done. unfold onData.
          rewrite Hw. cbn [fst snd]. by rewrite <- strip_split. }
        rewrite Hn, Hs. repeat split; try done.
        cbn [app map concat].
        by rewrite !strip_append, !append_assoc.
      * right; right. exists e. by rewrite Hn.
    + right; left. exists j, [], c, cs. rewrite Hr. cbn [fst snd].
      rewrite run_piping. cbn [fst snd dataSoFar piped passthrough piping].
      repeat split; try done.
      pose proof (split_pieces (Buffer.toString c)) as Hpieces.
      rewrite Hl in Hpieces. apply Forall_app in Hpieces as [_ Hrest].
      cbn [app map concat]. rewrite append_empty_r.
      rewrite !strip_append, strip_join by done.
      rewrite (strip_split (Buffer.toString c)), Hl, concat_chunks_app.
      by rewrite !append_assoc.
    + right; right. exists e. rewrite Hr. cbn [fst snd].
      by rewrite run_failed.
Qed.

(** X1.  Whatever the chunks, a fresh reader ends in one of three ways.
    No callback yet: everything received, decoded chunk by chunk and
    less the newlines, is in [dataSoFar] and nothing is in the
    pass-through stream.  Success with the chunk [c], nothing having
    been reported before it: [dataSoFar] is a text that [JSON.parse]
    reads as the value given to the callback, the stream is piped, and
    [dataSoFar] followed by the pass-through contents equals, up to
    newlines, the chunks up to [c] as decoded followed by the later
    chunks as they are; so, apart from newlines and from what the
    decoding replaces in the chunks up to [c], no byte is lost or
    doubled.  Failure by an exception of [JSON.parse] other than a
    SyntaxError: the callback got that exception and nothing is
    forwarded. *)
Theorem every_byte_accounted_for (chunks : list string) :
  ((feed chunks).2 = []
   ∧ (feed chunks).1
     = accumulating
         (strip_newlines (concat (map Buffer.toString chunks))))
  ∨ (∃ j pre c later,
       chunks = pre ++ c :: later
       ∧ (feed pre).2 = []
       ∧ (feed chunks).2 = [CallbackArgs Null j]
       ∧ JSON_parse (dataSoFar (feed chunks).1) = Parsed j
       ∧ piped (feed chunks).1 = true
       ∧ dataSoFar (feed chunks).1
         +:+ strip_newlines (passthrough (feed chunks).1)
         = strip_newlines
             (concat (map Buffer.toString (pre ++ [c]))
              +:+ concat later))
  ∨ (∃ e, (feed chunks).2 = [CallbackArgs e Undefined]
          ∧ JSON_parse (dataSoFar (feed chunks).1) = OtherError e
          ∧ piped (feed chunks).1 = false
          ∧ passthrough (feed chunks).1 = EmptyString).
Proof. apply (run_chunks chunks EmptyString). Qed.

Lemma run_pending (chunks : list string) :
  (feed chunks).2 = [] →
  run (map Data chunks) start
  = (accumulating
       (strip_newlines (concat (map Buffer.toString chunks))), []).
Proof.
  unfold feed. change start with (accumulating EmptyString). intros Hn.
  destruct (run_chunks chunks EmptyString)
    as [[_ Hr]|[(j & ? & ? & ? & _ & _ & Hj & _)|(e & He & _)]];
    [| congruence..].
  destruct (run (map Data chunks) (accumulating EmptyString)) as [r cbs].
  simpl in *. by subst.
Qed.

(** X2.  When the source stream fails or closes before a header has been
    read, the callback is called once, with the stream's error or with
    the error [stream unexpectedly closed]; what has been received so
    far, decoded chunk by chunk and less the newlines, stays in
    [dataSoFar], and nothing that arrives afterwards is parsed or
    forwarded. *)
Theorem failure_before_header (chunks later : list string) (e : value) :
  (feed chunks).2 = [] →
  let failing := run (map Data chunks ++ StreamError e :: map Data later)
                   start in
  let closing := run (map Data chunks ++ Close :: map Data later) start in
  (failing.2 = [CallbackArgs e Undefined]
   ∧ closing.2 = [CallbackArgs
                    (ErrorObj "Error" "stream unexpectedly closed")
                    Undefined])
  ∧ (passthrough failing.1 = EmptyString ∧ piped failing.1 = false
     ∧ dataSoFar failing.1
       = strip_newlines (concat (map Buffer.toString chunks)))
  ∧ (passthrough closing.1 = EmptyString ∧ piped closing.1 = false
     ∧ dataSoFar closing.1
       = strip_newlines (concat (map Buffer.toString chunks))).
Proof.
  intros Hn failing closing. subst failing closing.
  rewrite !run_app, (run_pending chunks Hn). cbn [fst snd app].
  rewrite !run_cons.
  set (d := strip_newlines (concat (map Buffer.toString chunks))).
  change (deliver (StreamError e) (accumulating d))
    with (failed d, Some (CallbackArgs e Undefined)).
  change (deliver Close (accumulating d))
    with (failed d,
          Some (CallbackArgs
                  (ErrorObj "Error" "stream unexpectedly closed")
                  Undefined)).
  cbn [fst snd]. by rewrite run_failed.
Qed.

(** X3.  A header laid out over several lines is read as one: when the
    text decoded from a chunk consists of lines, a newline and a rest,
    and the lines, glued without their newlines, form a text that
    [JSON.parse] accepts while no shorter run of whole lines does, the
    callback gets the value of the glued text and the pass-through
    stream gets exactly the rest as decoded, that is, with U+FFFD
    wherever the rest of the chunk was not well-formed UTF-8. *)
Theorem header_over_several_lines (chunk : string) (lines : list string)
    (j : value) (payload : string) :
  Buffer.toString chunk = join lines +:+ nl +:+ payload →
  lines ≠ [] →
  Forall (λ l, no_newline l = true) lines →
  (∀ k, (0 < k < length lines)%nat →
        JSON_parse (concat (take k lines)) = SyntaxError) →
  JSON_parse (concat lines) = Parsed j →
  feed [chunk]
  = (piping (concat lines) payload, [CallbackArgs Null j]).
Proof.
  intros Hutf Hne Hlines Hfail Hj. unfold feed. cbn [map].
  rewrite run_cons. change start with (accumulating EmptyString).
  rewrite deliver_data_unpiped by done. unfold onData. rewrite Hutf.
  rewrite <- append_assoc, join_terminated, split_terminated by done.
  rewrite (onData_loop_header lines EmptyString (split payload) j)
    by done.
  by rewrite join_split.
Qed.

End WithBuiltins.

End FramingFacts.

(** ** The life of a connection *)

Module LifecycleFacts.
Import Text Lines JS FrameReader Connection Wire.
Import TextFacts FrameReaderFacts JSFacts ConnectionFacts.

Lemma repl_starts_snoc (es : list effect) (e : effect) :
  repl_starts (es ++ [e])
  = repl_starts es ++ match e with StartREPL o => [o] | _ => [] end.
Proof. unfold repl_starts. rewrite omap_app. by destruct e. Qed.

Lemma evaluations_snoc (es : list effect) (e : effect) :
  evaluations (es ++ [e])
  = evaluations es
    ++ match e with SubmitEval c f => [(c, f)] | _ => [] end.
Proof. unfold evaluations. rewrite omap_app. by destruct e. Qed.

Lemma written_snoc (es : list effect) (e : effect) :
  written (es ++ [e])
  = written es
    ++ match e with
       | SocketWrite s | SocketEnd (Some s) => [s]
       | _ => []
       end.
Proof.
  unfold written. rewrite omap_app.
  by destruct e as [| | |[]| | | | | |].
Qed.

Section WithServer.
Context `{Builtins}.
Variable key : string.

(** *** Nothing is written to a closed socket *)

Lemma output_follows_session ev c :
  (session c = NoSession → output c = false) →
  session (step key ev c) = NoSession → output (step key ev c) = false.
Proof.
  intros Hc.
  assert (∀ ev' c0, (session c0 = NoSession → output c0 = false) →
            session (to_reader key ev' c0) = NoSession →
            output (to_reader key ev' c0) = false) as Hto.
  { intros ev' c0 Hc0. unfold to_reader.
    destruct (deliver ev' (frame c0)) as [r [a|]]; [| exact Hc0].
    unfold onHandshake, accept, reject.
    repeat case_match; simpl; (exact Hc0 || discriminate). }
  destruct ev as [[chunk|e|]| | | |]; cbn [step].
  - by apply Hto.
  - by apply Hto.
  - destruct (session c) eqn:Hs; [| done..].
    apply Hto. intros _. by apply Hc.
  - destruct (timeout c); [| exact Hc]. unfold onTimeout.
    cbn [socket set_timeout]. destruct (socket c); exact Hc.
  - destruct (session c) eqn:Hs; try (intros _; by apply Hc);
      unfold onEvalDone; destruct (socket c); intros Hx; cbn in Hx;
      congruence.
  - destruct (session c) eqn:Hs; try (intros _; by apply Hc);
      unfold onReplExit; destruct (output c); intros Hx; cbn in Hx;
      congruence.
  - destruct (session c) eqn:Hs; try (intros _; by apply Hc);
      unfold onProcessExit; destruct (output c); intros Hx; cbn in Hx;
      congruence.
Qed.

Lemma reachable_output evs :
  session (run key evs accepted) = NoSession →
  output (run key evs accepted) = false.
Proof.
  induction evs as [|ev evs IH] using rev_ind; [done |].
  rewrite run_snoc. by apply output_follows_session.
Qed.

Lemma closing_step c :
  inv c → (session c = NoSession → output c = false) →
  closed (step key (Stream Close) c)
  ∧ written (effects (step key (Stream Close) c)) = written (effects c).
Proof.
  intros [[d ->]|[[d ->]|[Ht Hc]]] Hout.
  - split; [| done]. by repeat split.
  - split; [| done]. by repeat split.
  - cbn [step].
    destruct (deliver_completed Close (frame (set_socket false c)) Hc)
      as (r & Hd & Hr).
    rewrite (to_reader_eq _ _ _ _ _ Hd).
    destruct Hr as (? & ? & ? & ? & ?).
    destruct (session c) eqn:Hs; cbn.
    + specialize (Hout eq_refl). by repeat split.
    + by repeat split.
    + by repeat split.
Qed.

Lemma closed_step ev c :
  closed c →
  closed (step key ev c)
  ∧ written (effects (step key ev c)) = written (effects c).
Proof.
  intros (Hsock & Hout & Ht & Hc).
  assert (∀ ev' c0, socket c0 = false → output c0 = false →
            timeout c0 = false → completed (frame c0) →
            closed (to_reader key ev' c0)
            ∧ effects (to_reader key ev' c0) = effects c0) as Hto.
  { intros ev' c0 ? ? ? Hc0.
    destruct (deliver_completed ev' _ Hc0) as (r & Hd & Hr).
    rewrite (to_reader_eq _ _ _ _ _ Hd).
    destruct Hr as (? & ? & ? & ? & ?). by repeat split. }
  pose proof Hc as (? & ? & ? & ? & ?).
  destruct ev as [[chunk|e|]| | | |]; cbn [step].
  - destruct (Hto (Data chunk) c) as [? ->]; done.
  - destruct (Hto (StreamError e) c) as [? ->]; done.
  - destruct (Hto Close (set_socket false c))
      as [(? & ? & ? & (? & ? & ? & ? & ?)) He]; try done.
    destruct (session c); simpl; rewrite ?He; by repeat split.
  - rewrite Ht. by repeat split.
  - destruct (session c); try by repeat split.
    unfold onEvalDone. rewrite Hsock. by repeat split.
  - destruct (session c); try by repeat split.
    unfold onReplExit. rewrite Hout. by repeat split.
  - destruct (session c); try by repeat split.
    unfold onProcessExit. rewrite Hout. by repeat split.
Qed.

Lemma closed_run evs : ∀ c,
  closed c → written (effects (run key evs c)) = written (effects c).
Proof.
  induction evs as [|ev evs IH]; intros c Hc; [done |].
  rewrite run_step. destruct (closed_step ev c Hc) as [Hc' <-].
  by apply IH.
Qed.

(** X4.  Once the socket has emitted "close", the server sends nothing
    more to the client, whatever had happened on the connection before
    and whatever happens after: not at the deadline, not when an
    evaluation completes, not when the REPL or the process exits. *)
Theorem closed_socket_silent (evs later : list event) :
  written (effects (run key (evs ++ Stream Close :: later) accepted))
  = written (effects (run key evs accepted)).
Proof.
  rewrite run_append, run_step.
  destruct (closing_step (run key evs accepted))
    as [Hc <-]; [apply reachable_inv | apply reachable_output |].
  by apply closed_run.
Qed.

(** *** One REPL for each connection *)

Lemma onHandshake_starts a c :
  repl_starts (effects c) = [] → evaluations (effects c) = [] →
  (length (repl_starts (effects (onHandshake key a c))) ≤ 1)%nat
  ∧ (length (evaluations (effects (onHandshake key a c))) ≤ 1)%nat.
Proof.
  intros Hr He. unfold onHandshake, accept, reject.
  repeat case_match; cbn [effects log set_timeout set_socket set_output
                          set_session];
    rewrite ?repl_starts_snoc, ?evaluations_snoc, ?Hr, ?He;
    simpl; lia.
Qed.

Lemma settled_step_starts ev c :
  settled c →
  repl_starts (effects (step key ev c)) = repl_starts (effects c)
  ∧ evaluations (effects (step key ev c)) = evaluations (effects c).
Proof.
  intros [Ht Hc].
  assert (∀ ev' c0, completed (frame c0) →
            effects (to_reader key ev' c0) = effects c0) as Hto.
  { intros ev' c0 Hc0.
    destruct (deliver_completed ev' _ Hc0) as (r & Hd & Hr).
    by rewrite (to_reader_eq _ _ _ _ _ Hd). }
  destruct ev as [[chunk|e|]| | | |]; cbn [step].
  - by rewrite Hto.
  - by rewrite Hto.
  - destruct (session c); simpl; by rewrite Hto.
  - by rewrite Ht.
  - destruct (session c); try done. unfold onEvalDone.
    destruct (socket c); [| done]. cbn [log effects].
    rewrite repl_starts_snoc, evaluations_snoc. by rewrite !app_nil_r.
  - destruct (session c); try done. unfold onReplExit.
    destruct (output c); [| done]. cbn [log effects].
    rewrite !repl_starts_snoc, !evaluations_snoc. by rewrite !app_nil_r.
  - destruct (session c); try done. unfold onProcessExit.
    destruct (output c); [| done]. cbn [log effects].
    rewrite repl_starts_snoc, evaluations_snoc. by rewrite !app_nil_r.
Qed.

Lemma first_phase_step ev c :
  handshaking c ∨ timed_out c →
  (length (repl_starts (effects (step key ev c))) ≤ 1)%nat
  ∧ (length (evaluations (effects (step key ev c))) ≤ 1)%nat.
Proof.
  assert (∀ ev' c0, repl_starts (effects c0) = [] →
            evaluations (effects c0) = [] →
            (length (repl_starts (effects (to_reader key ev' c0))) ≤ 1)%nat
            ∧ (length (evaluations (effects (to_reader key ev' c0)))
               ≤ 1)%nat) as Hto.
  { intros ev' c0 Hr He. unfold to_reader.
    destruct (deliver ev' (frame c0)) as [r [a|]].
    - by apply onHandshake_starts.
    - cbn [set_frame effects]. rewrite Hr, He. simpl. lia. }
  intros [[d ->]|[d ->]];
    (destruct ev as [[chunk|e|]| | | |]; cbn [step];
     [by apply Hto | by apply Hto | by apply Hto | simpl; lia..]).
Qed.

(** X5.  On one connection the server starts at most one REPL and
    submits at most one evaluation of its own, whatever the client sends
    and in whatever order the events come. *)
Theorem one_repl_per_connection (evs : list event) :
  (length (repl_starts (effects (run key evs accepted))) ≤ 1)%nat
  ∧ (length (evaluations (effects (run key evs accepted))) ≤ 1)%nat.
Proof.
  induction evs as [|ev evs IH] using rev_ind; [simpl; lia |].
  rewrite run_snoc.
  destruct (reachable_inv key evs) as [Hh|[Ht|Hs]].
  - apply first_phase_step. by left.
  - apply first_phase_step. by right.
  - destruct (settled_step_starts ev _ Hs) as [-> ->]. exact IH.
Qed.

(** *** A stream that fails before the handshake *)

(** X6.  When the socket reports an error, or closes, while the server
    still waits for the handshake, the server cancels the deadline, logs
    the error (for a close: [stream unexpectedly closed]) and gives up
    the socket; the client is sent nothing, then or later, and no session
    is ever started on the connection. *)
Theorem failure_before_handshake (evs later : list event) (e : value) :
  timeout (run key evs accepted) = true →
  truthy e = true →
  let failed := run key (evs ++ [Stream (StreamError e)]) accepted in
  let closed := run key (evs ++ [Stream Close]) accepted in
  (effects failed = [ClearTimeout; ConsoleError e]
   ∧ socket failed = false ∧ timeout failed = false
   ∧ effects (run key later failed) = effects failed
   ∧ session (run key later failed) = NoSession)
  ∧ (effects closed
     = [ClearTimeout;
        ConsoleError (ErrorObj "Error" "stream unexpectedly closed")]
     ∧ socket closed = false ∧ timeout closed = false
     ∧ effects (run key later closed) = effects closed
     ∧ session (run key later closed) = NoSession).
Proof.
  intros Ht He failed closed. subst failed closed. rewrite !run_snoc.
  destruct (reachable_inv key evs) as [[d Hc]|[[d Hc]|[Ht' _]]];
    [| rewrite Hc in Ht; discriminate | congruence].
  rewrite Hc. cbn [step]. unfold to_reader. cbn.
  unfold onHandshake. cbn. rewrite He.
  split.
  - destruct (idle_run key later
                (Conn false false
                   (Reader d true false false false false EmptyString 1)
                   NoSession false [ClearTimeout; ConsoleError e]))
      as [Hs Heff]; [by repeat split | done |].
    by repeat split.
  - destruct (idle_run key later
                (Conn false false
                   (Reader d true false false false false EmptyString 1)
                   NoSession false
                   [ClearTimeout;
                    ConsoleError
                      (ErrorObj "Error" "stream unexpectedly closed")]))
      as [Hs Heff]; [by repeat split | done |].
    by repeat split.
Qed.

(** *** The deadline after the first action *)

(** X7.  The deadline acts on an untouched connection only: as soon as
    the server has done anything on a connection (the handshake callback
    has run, with whatever outcome, or the timer has fired once), the
    timer changes nothing any more.  In particular it never cuts off a
    session. *)
Theorem deadline_acts_once (evs : list event) :
  effects (run key evs accepted) ≠ [] →
  run key (evs ++ [TimerFires]) accepted = run key evs accepted.
Proof.
  intros He. rewrite run_snoc.
  destruct (reachable_inv key evs) as [[d Hc]|[[d Hc]|[Ht _]]].
  - rewrite Hc in He. done.
  - by rewrite Hc.
  - cbn [step]. by rewrite Ht.
Qed.

(** *** The handshake over any segmentation *)

Lemma onHandshake_set_frame a r c :
  onHandshake key a (set_frame r c) = set_frame r (onHandshake key a c).
Proof.
  destruct c as [sock tm fr md out es].
  unfold onHandshake, accept, reject.
  cbn [set_frame set_timeout log socket timeout frame session output
       effects].
  destruct (truthy (cb_error a)); [done |].
  destruct (cb_json a) as [| |b|n|s|xs|o|name message|h];
    destruct sock; try done.
  - destruct (strict_eq_string (get "key" o) key); [| done].
    cbn. destruct (truthy (get "columns" o)); cbn;
      by destruct (truthy (get "evaluateAndExit" (repl_options true o))).
  - destruct (strict_eq_string (get "key" o) key); [| done].
    cbn. by rewrite andb_false_r.
Qed.

Lemma settled_data_run (chunks : list string) : ∀ c,
  completed (frame c) →
  run key (data_events chunks) c
  = set_frame (FrameReader.run (map Data chunks) (frame c)).1 c.
Proof.
  induction chunks as [|chunk chunks IH]; intros c Hc.
  - by destruct c.
  - change (data_events (chunk :: chunks))
      with (Stream (Data chunk) :: data_events chunks).
    change (map Data (chunk :: chunks))
      with (Data chunk :: map Data chunks).
    rewrite run_step, FrameReaderFacts.run_cons. cbn [step fst].
    destruct (deliver_completed (Data chunk) _ Hc) as (r & Hd & Hr).
    rewrite (to_reader_eq _ _ _ _ _ Hd), Hd. cbn [fst].
    rewrite IH by done. by destruct c.
Qed.

(** The connection does with the chunks what the frame reader does with
    them, and calls the handshake callback with what the reader
    reports. *)
Lemma handshake_of_chunks (chunks : list string) : ∀ d r a,
  FrameReader.run (map Data chunks) (accumulating d) = (r, [a]) →
  run key (data_events chunks)
    (Conn true true (accumulating d) NoSession false [])
  = onHandshake key a (Conn true true r NoSession false []).
Proof.
  induction chunks as [|chunk chunks IH]; intros d r a Hrun; [done |].
  change (data_events (chunk :: chunks))
    with (Stream (Data chunk) :: data_events chunks).
  change (map Data (chunk :: chunks))
    with (Data chunk :: map Data chunks) in Hrun.
  rewrite FrameReaderFacts.run_cons in Hrun.
  rewrite run_step. cbn [step].
  destruct (deliver_accumulating (Data chunk) d)
    as [(d' & Hd)|(r1 & a1 & Hd & Hc)].
  - rewrite (to_reader_eq _ _ _ (accumulating d') None) by done.
    rewrite Hd in Hrun. cbn [fst snd] in Hrun.
    apply IH. by destruct (FrameReader.run (map Data chunks) _).
  - rewrite (to_reader_eq _ _ _ r1 (Some a1)) by done.
    rewrite Hd in Hrun. cbn [fst snd] in Hrun.
    destruct (run_completed (map Data chunks) r1 Hc) as [Hn _].
    rewrite Hn in Hrun. injection Hrun as <- <-.
    rewrite settled_data_run
      by (rewrite onHandshake_frame; exact Hc).
    rewrite onHandshake_frame. cbn [set_frame frame].
    rewrite <- onHandshake_set_frame. done.
Qed.

(** X8.  The handshake survives any segmentation of the stream.  When a
    header, on one line or on several, that [JSON.parse] reads, once its
    newlines are removed, as an object with the server's key (no proper
    prefix of the header being accepted) is followed by a newline and a
    payload, then however these bytes are cut into chunks, provided
    that each chunk up to the one that reaches the end of the header is
    well-formed UTF-8 by itself, the server cancels the deadline, starts
    one REPL with the negotiated options and enters one-shot or
    interactive mode according to [evaluateAndExit]; the REPL's input
    stream holds the payload, preceded by the header's newline when a
    chunk ended with the header. *)
Theorem handshake_any_segmentation (h payload : string) (options : object)
    (chunks : list string) :
  JSON_parse (strip_newlines h) = Parsed (Obj options) →
  Forall (λ p, JSON_parse (strip_newlines p) = SyntaxError)
    (proper_prefixes h) →
  strict_eq_string (get "key" options) key = true →
  concat chunks = h +:+ nl +:+ payload →
  Forall (λ c, Buffer.toString c = c)
    (header_chunks (String.length h) chunks) →
  let c := run key (data_events chunks) accepted in
  timeout c = false
  ∧ session c
    = (if truthy (get "evaluateAndExit" options)
       then OneShot else Interactive)
  ∧ repl_starts (effects c) = [repl_options true options]
  ∧ written (effects c) = []
  ∧ passthrough (frame c)
    = (if header_ends_chunk (String.length h) chunks
       then nl +:+ payload else payload).
Proof.
  intros Hp Hpre Hk Hcat Hutf c. subst c.
  assert (FrameReader.run (map Data chunks) (accumulating EmptyString)
          = (piping (strip_newlines h)
               (if header_ends_chunk (String.length h) chunks
                then nl +:+ payload else payload),
             [CallbackArgs Null (Obj options)])) as Hrun.
  { apply (run_header chunks EmptyString h (Obj options)
             (nl +:+ payload)); try done.
    - intros m x y ->. simpl. rewrite Forall_forall in Hpre.
      apply Hpre, elem_of_proper_prefixes.
    - right. by exists payload. }
  change accepted
    with (Conn true true (accumulating EmptyString) NoSession false []).
  rewrite (handshake_of_chunks chunks _ _ _ Hrun).
  unfold onHandshake. cbn [cb_error cb_json truthy]. rewrite Hk.
  change (log ClearTimeout (set_timeout false (Conn true true ?r _ _ _)))
    with (Conn true false
            (piping (strip_newlines h)
               (if header_ends_chunk (String.length h) chunks
                then nl +:+ payload else payload))
            NoSession false [ClearTimeout]).
  rewrite accept_open. cbn zeta.
  cbn [timeout session effects frame passthrough piping].
  split; [done |]. split; [done |].
  unfold columns_effect, repl_starts, written.
  by destruct (truthy (get "columns" options)),
              (truthy (get "evaluateAndExit" options)).
Qed.

End WithServer.

End LifecycleFacts.

(** ** Completion callbacks of the pipeline *)

Module CompletionFacts.
Import EvalPipeline Completion EvalPipelineFacts.

Lemma fired_app (t1 t2 : list observation) :
  fired (t1 ++ t2) = fired t1 ++ fired t2.
Proof. apply omap_app. Qed.

Lemma owed_app (js1 js2 : list job) :
  owed (js1 ++ js2) = owed js1 ++ owed js2.
Proof. apply map_app. Qed.

Lemma owed_then (rs : list request) : owed (map ThenJob rs) = map rid rs.
Proof. induction rs as [|r rs IH]; simpl; [done | by rewrite <- IH]. Qed.

(** Running a job settles or passes on the callback it owes. *)
Lemma run_job_account (j : job) (js : list job) (sus : list nat)
    (tr : list observation) :
  account (run_job j (Loop js sus tr)) ≡ₚ account (Loop (j :: js) sus tr).
Proof.
  unfold account. destruct j as [r|r]; simpl.
  - destruct (behaviour r); simpl.
    + rewrite fired_app. simpl. rewrite <- app_assoc. simpl.
      apply Permutation_app_head, Permutation_middle.
    + rewrite fired_app. simpl. rewrite app_nil_r, <- (app_assoc sus).
      done.
    + rewrite fired_app, owed_app. simpl. rewrite app_nil_r.
      apply Permutation_app_head, Permutation_app_head.
      symmetry. apply Permutation_cons_append.
  - rewrite fired_app. simpl. rewrite <- app_assoc. simpl.
    apply Permutation_app_head, Permutation_middle.
Qed.

Lemma drain_account (fuel : nat) :
  ∀ l, account (drain fuel l) ≡ₚ account l.
Proof.
  induction fuel as [|fuel IH]; intros [q sus tr]; [done |].
  destruct q as [|j js]; [done |]. cbn [drain microtasks suspended trace].
  rewrite IH. apply run_job_account.
Qed.

Lemma remove_id_absent (i : nat) (ids : list nat) :
  i ∉ ids → remove_id i ids = ids.
Proof.
  induction ids as [|x ids IH]; [done |].
  rewrite not_elem_of_cons. intros [Hne Hin].
  change (remove_id i (x :: ids)) with (filter (λ j, j ≠ i) (x :: ids)).
  rewrite filter_cons_True by done.
  change (filter (λ j, j ≠ i) ids) with (remove_id i ids).
  by rewrite IH.
Qed.

Lemma remove_id_present (i : nat) (ids : list nat) :
  NoDup ids → i ∈ ids → i :: remove_id i ids ≡ₚ ids.
Proof.
  induction 1 as [|x ids Hx Hnd IH]; [by intros ?%elem_of_nil |].
  rewrite elem_of_cons.
  change (remove_id i (x :: ids)) with (filter (λ j, j ≠ i) (x :: ids)).
  destruct (decide (x = i)) as [->|Hne].
  - intros _. rewrite filter_cons_False by (intros Hn; by apply Hn).
    change (filter (λ j, j ≠ i) ids) with (remove_id i ids).
    by rewrite (remove_id_absent i ids).
  - intros [->|Hin]; [done |].
    rewrite filter_cons_True by done.
    change (filter (λ j, j ≠ i) ids) with (remove_id i ids).
    rewrite Permutation_swap. by rewrite IH.
Qed.

Lemma run_turn_account (t : turn) (l : loop) :
  NoDup (suspended l) →
  account (run_turn t l) ≡ₚ account l ++ submitted [t].
Proof.
  intros Hnd. destruct t as [rs|id]; simpl.
  - unfold checkpoint. rewrite drain_account, submit_all.
    unfold account. simpl. rewrite owed_app, owed_then, app_nil_r.
    by rewrite <- !app_assoc.
  - rewrite app_nil_r. case_bool_decide as Hin; [| done].
    unfold account. simpl. rewrite fired_app. simpl.
    rewrite <- app_assoc. simpl.
    apply Permutation_app_head.
    rewrite <- (remove_id_present id (suspended l)) at 2 by done.
    done.
Qed.

Lemma run_account (ts : list turn) :
  NoDup (submitted ts) → account (run ts) ≡ₚ submitted ts.
Proof.
  induction ts as [|t ts IH] using rev_ind; [done |].
  rewrite submitted_snoc. intros Hnd.
  pose proof Hnd as (Hts & _ & _)%NoDup_app.
  rewrite run_last_turn, run_turn_account.
  - by rewrite IH.
  - specialize (IH Hts). rewrite <- IH in Hts.
    unfold account in Hts.
    by apply NoDup_app in Hts as (_ & _ & (? & _ & _)%NoDup_app).
Qed.

Lemma submitted_requests (ts : list turn) :
  submitted ts = map rid (requests ts).
Proof.
  induction ts as [|[rs|id] ts IH]; [done | |]; simpl; [| done].
  by rewrite map_app, IH.
Qed.

Lemma requests_snoc (ts : list turn) (t : turn) :
  requests (ts ++ [t]) = requests ts ++ requests [t].
Proof. unfold requests. by rewrite flat_map_app. Qed.

Lemma sound_more (rs rs' : list request) (l : loop) :
  sound rs l → sound (rs ++ rs') l.
Proof.
  intros [Hs Hq]. split.
  - intros id Hid. destruct (Hs id Hid) as (r & Hr & Hrest).
    exists r. split; [| done]. apply elem_of_app. by left.
  - intros r Hr. apply elem_of_app. left. by apply Hq.
Qed.

(** A job suspends only the evaluator that suspends, and queues no
    evaluator. *)
Lemma run_job_sound (rs : list request) (j : job) (js : list job)
    (sus : list nat) (tr : list observation) :
  sound rs (Loop (j :: js) sus tr) →
  sound rs (run_job j (Loop js sus tr)).
Proof.
  intros [Hs Hq]. cbn [suspended microtasks] in *.
  assert (∀ r, ThenJob r ∈ js → r ∈ rs) as Hjs
    by (intros r Hr; by apply Hq, list_elem_of_further).
  destruct j as [r|r]; cbn [run_job]; [| by split].
  assert (r ∈ rs) as Hr by apply Hq, list_elem_of_here.
  destruct (behaviour r) eqn:Hb; cbn [suspended microtasks];
    (split; [| try done]); try done.
  - intros id [Hid|Hid]%elem_of_app; [by apply Hs |].
    apply list_elem_of_singleton in Hid as ->. by exists r.
  - intros r' [Hr'|Hr']%elem_of_app; [by apply Hjs |].
    by apply list_elem_of_singleton in Hr'.
Qed.

Lemma drain_sound (rs : list request) (fuel : nat) :
  ∀ l, sound rs l → sound rs (drain fuel l).
Proof.
  induction fuel as [|fuel IH]; intros [q sus tr] Hl; [done |].
  destruct q as [|j js]; [done |]. cbn [drain microtasks suspended trace].
  by apply IH, run_job_sound.
Qed.

Lemma run_turn_sound (rs : list request) (t : turn) (l : loop) :
  sound rs l → sound (rs ++ requests [t]) (run_turn t l).
Proof.
  intros Hl. destruct t as [rs'|id]; cbn [run_turn requests flat_map].
  - rewrite app_nil_r. unfold checkpoint. apply drain_sound.
    rewrite submit_all. destruct Hl as [Hs Hq]. split.
    + intros id Hid. destruct (Hs id Hid) as (r & Hr & Hrest).
      exists r. split; [| done]. apply elem_of_app. by left.
    + cbn [microtasks]. intros r [Hr|Hr]%elem_of_app.
      * apply elem_of_app. left. by apply Hq.
      * apply elem_of_app. right.
        apply list_elem_of_fmap in Hr as (r' & [= ->] & Hr'). done.
  - rewrite app_nil_r. case_bool_decide; [| done].
    destruct Hl as [Hs Hq]. split; [| done].
    cbn [suspended]. unfold remove_id.
    intros id' [_ Hid']%list_elem_of_filter. by apply Hs.
Qed.

Lemma run_sound (ts : list turn) : sound (requests ts) (run ts).
Proof.
  induction ts as [|t ts IH] using rev_ind.
  - split; intros ? Hin; by apply elem_of_nil in Hin.
  - rewrite run_last_turn, requests_snoc. by apply run_turn_sound.
Qed.

(** Requests with distinct identifiers are told apart by them. *)
Lemma rid_inj (rs : list request) (r r' : request) :
  NoDup (map rid rs) → r ∈ rs → r' ∈ rs → rid r = rid r' → r = r'.
Proof.
  induction rs as [|x rs IH]; [by intros _ ?%elem_of_nil |].
  cbn [map]. intros [Hx Hnd]%NoDup_cons.
  intros [->|Hr]%elem_of_cons [->|Hr']%elem_of_cons Heq; [done | | |].
  - destruct Hx. rewrite Heq. apply list_elem_of_fmap. by exists r'.
  - destruct Hx. rewrite <- Heq. apply list_elem_of_fmap. by exists r.
  - by apply IH.
Qed.

(** X9.  No completion callback is lost and none fires twice.  With
    evaluators that call back before they return, suspend, or throw
    before they have called back, and requests that are distinct, at the
    end of every turn each submitted request either has had its callback
    fired, exactly once, or is suspended and still owes it; and the
    callback of every evaluator that does not suspend has fired by the
    end of the turn that submitted it: that of an evaluator that throws,
    through the rejection handler. *)
Theorem callbacks_accounted_for (ts : list turn) :
  NoDup (submitted ts) →
  fired (trace (run ts)) ++ suspended (run ts) ≡ₚ submitted ts
  ∧ NoDup (fired (trace (run ts)))
  ∧ (∀ r, r ∈ requests ts →
          behaviour r ≠ Suspends →
          rid r ∈ fired (trace (run ts)) ∧ rid r ∉ suspended (run ts))
  ∧ (∀ r, r ∈ requests ts →
          behaviour r = Suspends →
          rid r ∈ fired (trace (run ts)) ∨ rid r ∈ suspended (run ts)).
Proof.
  intros Hnd. pose proof (run_account ts Hnd) as Hacc.
  unfold account in Hacc. destruct (run_fifo ts) as [Hq _].
  rewrite Hq in Hacc. simpl in Hacc. rewrite app_nil_r in Hacc.
  assert (∀ r, r ∈ requests ts →
               rid r ∈ fired (trace (run ts))
               ∨ rid r ∈ suspended (run ts)) as Hall.
  { intros r Hr. apply elem_of_app. rewrite Hacc, submitted_requests.
    apply list_elem_of_fmap. by exists r. }
  split; [done |]. split; [| split].
  - rewrite <- Hacc in Hnd. by apply NoDup_app in Hnd as (? & _ & _).
  - intros r Hr Hb.
    assert (rid r ∉ suspended (run ts)) as Hnot.
    { intros Hsus. destruct (run_sound ts) as [Hs _].
      destruct (Hs _ Hsus) as (r' & Hr' & Heq & Hb').
      rewrite submitted_requests in Hnd.
      by rewrite (rid_inj (requests ts) r r') in Hb. }
    split; [| done]. by destruct (Hall r Hr).
  - intros r Hr _. by apply Hall.
Qed.

End CompletionFacts.

(** ** The history file over the sessions *)

Module HistoryFileFacts.
Import Text Lines History HistoryFile HistoryLog.
Import TextFacts LinesFacts HistoryFacts.

Lemma NoDup_scan (lines : list string) : ∀ seen, NoDup (scan lines seen).
Proof.
  induction lines as [|line lines IH]; intros seen; simpl;
    [constructor |].
  destruct (fresh line seen); [| done].
  apply NoDup_cons. split; [| done].
  rewrite elem_of_scan. intros (_ & _ & Hn). apply Hn. set_solver.
Qed.

(** X10.  Whatever the history file holds, the recall list loaded from
    it has no entry twice, and its entries are exactly the lines of the
    file that contain something else than white space. *)
Theorem recall_list_entries (file : string) :
  NoDup (initializeHistory file None)
  ∧ (∀ line, line ∈ initializeHistory file None
             ↔ line ∈ split file ∧ blank line = false).
Proof.
  rewrite initializeHistory_scan. split; [apply NoDup_scan |].
  intros line. rewrite elem_of_scan, elem_of_reverse. set_solver.
Qed.

(** X11.  A recall list the REPL already has is kept as it is, in front;
    the entries loaded from the file come behind it, the same as for an
    empty list: they are not compared with the entries already there. *)
Theorem recall_list_kept (file : string) (history : list string) :
  initializeHistory file (Some history)
  = history ++ initializeHistory file None.
Proof.
  unfold initializeHistory. by rewrite !load_scan.
Qed.

(** The file after any inputs of a session. *)
Lemma session_closed (inputs : list input) (text : string) :
  contents (session inputs (Store (-1) text)) = text.
Proof.
  induction inputs as [|[line|] inputs IH]; [done | exact IH..].
Qed.

(** A session on an open file. *)
Lemma session_open (fd : Z) (inputs : list input) : ∀ text,
  (0 ≤ fd)%Z →
  contents (session inputs (Store fd text))
  = text +:+ terminated (logged inputs).
Proof.
  induction inputs as [|[line|] inputs IH]; intros text Hfd.
  - simpl. by rewrite append_empty_r.
  - cbn [session fold_left listen_to logged]. unfold onLine.
    cbn [historyFd contents].
    replace (0 <=? fd)%Z with true by (symmetry; apply Z.leb_le; lia).
    cbn [andb]. destruct (has_non_space line).
    + change (fold_left _ inputs ?st) with (session inputs st).
      rewrite IH by done. cbn [terminated]. by rewrite !append_assoc.
    + by apply IH.
  - change (contents (session inputs (Store (-1) text))
            = text +:+ EmptyString).
    by rewrite session_closed, append_empty_r.
Qed.

(** X12.  The history file only grows, by whole lines: after any inputs
    of a session its contents are the contents at the start followed by
    the lines, each with a newline, that contain something else than
    white space and came before the first "exit".  Blank lines and
    everything after "exit" leave the file as it is. *)
Theorem history_file_appended (fd : N) (file : string)
    (inputs : list input) :
  contents (session inputs (openSync fd file))
  = file +:+ terminated (logged inputs).
Proof. apply session_open. lia. Qed.

(** Blank lines count for nothing in the recall list. *)
Lemma most_recent_only_filter (lines : list string) :
  most_recent_only lines
  = most_recent_only (filter (λ l, blank l = false) lines).
Proof.
  induction lines as [|line lines IH]; [done |].
  cbn [most_recent_only]. destruct (blank line) eqn:Hb; cbn [orb].
  - rewrite filter_cons_False by congruence. exact IH.
  - rewrite filter_cons_True by done. cbn [most_recent_only].
    rewrite Hb. cbn [orb].
    rewrite (bool_decide_ext (line ∈ filter (λ l, blank l = false) lines)
               (line ∈ lines))
      by (rewrite list_elem_of_filter; tauto).
    by rewrite IH.
Qed.

Lemma blank_empty : blank EmptyString = true.
Proof. reflexivity. Qed.

(** X13.  What one session writes, the next one recalls.  When the
    history file is empty or ends with a newline, and the lines of a
    session contain no newline, the recall list loaded from the file
    after the session is, from the oldest entry to the newest, the list
    of the non-blank lines of the old file followed by those of the
    session, each line at its most recent occurrence only. *)
Theorem history_written_then_recalled (fd : N) (file : string)
    (inputs : list input) :
  newline_terminated file = true →
  Forall (λ l, no_newline l = true) (logged inputs) →
  oldest_to_newest
    (initializeHistory (contents (session inputs (openSync fd file))) None)
  = most_recent_only (split file ++ logged inputs).
Proof.
  intros Hfile Hlines. unfold openSync.
  rewrite session_open by lia.
  unfold oldest_to_newest.
  rewrite initializeHistory_scan, scan_most_recent_only.
  assert (split (terminated (logged inputs))
          = logged inputs ++ [EmptyString]) as Hsplit.
  { rewrite <- (append_empty_r (terminated (logged inputs))).
    by rewrite split_terminated. }
  rewrite most_recent_only_filter.
  rewrite (most_recent_only_filter (split file ++ logged inputs)).
  f_equal.
  destruct (newline_terminated_inv file Hfile) as [->|[f ->]].
  - simpl (EmptyString +:+ _). rewrite Hsplit. cbn [split].
    rewrite !filter_app.
    rewrite !(filter_cons_False _ EmptyString) by done.
    change (filter _ (@nil string)) with (@nil string).
    by rewrite app_nil_r.
  - assert (split (f +:+ nl) = split f ++ [EmptyString]) as Hf.
    { rewrite <- (append_empty_r (f +:+ nl)), append_assoc.
      by rewrite split_around_newline. }
    rewrite Hf, append_assoc, split_around_newline, Hsplit.
    rewrite !filter_app.
    rewrite !(filter_cons_False _ EmptyString) by done.
    change (filter _ (@nil string)) with (@nil string).
    by rewrite !app_nil_r.
Qed.

End HistoryFileFacts.

(** ** The info file *)

Module DiscoveryFacts.
Import Text JS Discovery.

(** Mode 600 gives group and others nothing, whatever the umask. *)
Lemma private_mode (umask : Z) :
  Z.land (Z.land INFO_FILE_MODE (Z.lnot umask)) GROUP_AND_OTHERS = 0%Z.
Proof.
  rewrite <- Z.land_assoc, (Z.land_comm (Z.lnot umask)), Z.land_assoc.
  change (Z.land INFO_FILE_MODE GROUP_AND_OTHERS) with 0%Z.
  apply Z.land_0_l.
Qed.

Lemma writeFileSync_throws (umask : Z) (path text : string) (m : Z)
    (fs : filesystem) :
  path ∈ unwritable fs → writeFileSync umask path text m fs = None.
Proof. intros Hin. unfold writeFileSync. by rewrite bool_decide_true. Qed.

Lemma writeFileSync_writes (umask : Z) (path text : string) (m : Z)
    (fs : filesystem) :
  path ∉ unwritable fs →
  writeFileSync umask path text m fs
  = Some (FileSystem
            (<[path := File text
                         (from_option mode (Z.land m (Z.lnot umask))
                            (files fs !! path))]> (files fs))
            (pinned fs) (unwritable fs)).
Proof.
  intros Hin. unfold writeFileSync. rewrite bool_decide_false by done.
  by destruct (files fs !! path).
Qed.

Lemma unlink_removes (path : string) (fs : filesystem) :
  path ∉ pinned fs →
  unlink path fs
  = FileSystem (base.delete path (files fs)) (pinned fs) (unwritable fs).
Proof. intros Hin. unfold unlink. by rewrite bool_decide_false. Qed.

Lemma owner_only_absent (path : string) (fs : filesystem) :
  files fs !! path = None → owner_only path fs.
Proof. intros Hnone f Hf. congruence. Qed.

Lemma owner_only_written (umask : Z) (path text : string)
    (fs : filesystem) :
  path ∉ unwritable fs →
  owner_only path fs →
  ∀ fs', writeFileSync umask path text INFO_FILE_MODE fs = Some fs' →
         owner_only path fs'.
Proof.
  intros Hw Hfs fs'. rewrite writeFileSync_writes by done.
  intros [= <-] f. cbn [files]. rewrite lookup_insert_eq. intros [= <-].
  cbn [mode]. destruct (files fs !! path) as [old|] eqn:Hold; simpl.
  - by apply Hfs.
  - apply private_mode.
Qed.

Section WithPlatform.
Context `{Builtins}.
Variable path_join : string → string → string.
Variable umask : Z.

Lemma apply_pinned (shellDir : string) (op : operation) (fs : filesystem) :
  pinned (apply path_join umask shellDir op fs) = pinned fs
  ∧ unwritable (apply path_join umask shellDir op fs) = unwritable fs.
Proof.
  destruct op as [key port|]; unfold apply, listen, disable.
  - set (info := getInfoFile path_join shellDir).
    assert (pinned (unlink info fs) = pinned fs
            ∧ unwritable (unlink info fs) = unwritable fs) as [Hp Hu].
    { unfold unlink. by case_bool_decide. }
    destruct (decide (info ∈ unwritable (unlink info fs))) as [Hin|Hin].
    + by rewrite writeFileSync_throws.
    + by rewrite writeFileSync_writes.
  - set (info := getInfoFile path_join shellDir).
    destruct (decide (info ∈ unwritable fs)) as [Hin|Hin].
    + by rewrite writeFileSync_throws.
    + by rewrite writeFileSync_writes.
Qed.

Lemma apply_listen_private (shellDir key : string) (port : Z)
    (fs : filesystem) :
  getInfoFile path_join shellDir ∉ pinned fs →
  owner_only (getInfoFile path_join shellDir)
    (apply path_join umask shellDir (Listen key port) fs).
Proof.
  intros Hpin. unfold apply, listen.
  set (info := getInfoFile path_join shellDir) in *.
  assert (files (unlink info fs) !! info = None) as Hnone.
  { rewrite unlink_removes by done. apply lookup_delete_eq. }
  destruct (writeFileSync umask info _ INFO_FILE_MODE (unlink info fs))
    as [fs'|] eqn:Hwrite; simpl.
  - destruct (decide (info ∈ unwritable (unlink info fs))) as [Hin|Hin].
    + by rewrite writeFileSync_throws in Hwrite.
    + eapply owner_only_written; [done | | done].
      by apply owner_only_absent.
  - by apply owner_only_absent.
Qed.

Lemma apply_private (shellDir : string) (op : operation)
    (fs : filesystem) :
  getInfoFile path_join shellDir ∉ pinned fs →
  owner_only (getInfoFile path_join shellDir) fs →
  owner_only (getInfoFile path_join shellDir)
    (apply path_join umask shellDir op fs).
Proof.
  intros Hpin Hfs. destruct op as [key port|].
  - by apply apply_listen_private.
  - unfold apply, disable.
    set (info := getInfoFile path_join shellDir) in *.
    destruct (writeFileSync umask info _ INFO_FILE_MODE fs)
      as [fs'|] eqn:Hwrite; [| done].
    destruct (decide (info ∈ unwritable fs)) as [Hin|Hin].
    + by rewrite writeFileSync_throws in Hwrite.
    + by eapply owner_only_written.
Qed.

Lemma apply_all_private (shellDir : string) (ops : list operation) :
  ∀ fs,
    getInfoFile path_join shellDir ∉ pinned fs →
    owner_only (getInfoFile path_join shellDir) fs →
    owner_only (getInfoFile path_join shellDir)
      (apply_all path_join umask shellDir ops fs).
Proof.
  induction ops as [|op ops IH]; intros fs Hpin Hfs; [done |].
  change (apply_all path_join umask shellDir (op :: ops) fs)
    with (apply_all path_join umask shellDir ops
            (apply path_join umask shellDir op fs)).
  apply IH.
  - by rewrite (proj1 (apply_pinned shellDir op fs)).
  - by apply apply_private.
Qed.

(** X14.  Publishing the endpoint.  When the info file can be unlinked
    and written, [Server.listen] leaves in it the record of the enabled
    server with the port and the key, followed by a newline, in a file
    of mode 600 less the umask, which gives group and others no
    permission, whatever file was there before; no other file is
    changed. *)
Theorem listen_publishes (shellDir key : string) (port : Z)
    (fs : filesystem) :
  let info := getInfoFile path_join shellDir in
  info ∉ pinned fs →
  info ∉ unwritable fs →
  ∃ fs',
    listen path_join umask shellDir key port fs = Some fs'
    ∧ files fs' !! info
      = Some (File (JSON_stringify (enabled_record port key) +:+ nl)
                   (Z.land INFO_FILE_MODE (Z.lnot umask)))
    ∧ owner_only info fs'
    ∧ ∀ path, path ≠ info → files fs' !! path = files fs !! path.
Proof.
  intros info Hpin Hw. unfold listen. fold info.
  rewrite unlink_removes by done.
  rewrite writeFileSync_writes by done. cbn [files].
  rewrite lookup_delete_eq. cbn [from_option].
  eexists. split; [done |]. cbn [files]. split; [| split].
  - by rewrite lookup_insert_eq.
  - intros f. cbn [files]. rewrite lookup_insert_eq. intros [= <-].
    apply private_mode.
  - intros path Hne. rewrite lookup_insert_ne by done.
    by rewrite lookup_delete_ne.
Qed.

(** X16.  The record stays private.  Once [Server.listen] has run on a
    directory whose info file it can unlink, the info file gives group
    and others no permission, whatever followed: records of later
    servers, disabling, writes that failed. *)
Theorem record_stays_private (shellDir key : string) (port : Z)
    (ops : list operation) (fs : filesystem) :
  getInfoFile path_join shellDir ∉ pinned fs →
  owner_only (getInfoFile path_join shellDir)
    (apply_all path_join umask shellDir (Listen key port :: ops) fs).
Proof.
  intros Hpin.
  change (apply_all path_join umask shellDir (Listen key port :: ops) fs)
    with (apply_all path_join umask shellDir ops
            (apply path_join umask shellDir (Listen key port) fs)).
  apply apply_all_private.
  - by rewrite (proj1 (apply_pinned shellDir (Listen key port) fs)).
  - by apply apply_listen_private.
Qed.

End WithPlatform.

End DiscoveryFacts.

(** ** The help texts *)

Module ReplHelpFacts.
Import ReplHelp.

Lemma addHelp_dom (cmd helpText : string) (cs : commands) :
  dom (addHelp cmd helpText cs) = dom cs.
Proof.
  unfold addHelp. destruct (cs !! cmd) eqn:Hcmd.
  - apply dom_insert_lookup_L. by rewrite Hcmd.
  - destruct (cs !! ("." +:+ cmd)) eqn:Hdot; [| done].
    apply dom_insert_lookup_L. by rewrite Hdot.
Qed.

Lemma addHelp_other (cmd helpText k : string) (cs : commands) :
  k ≠ cmd → k ≠ "." +:+ cmd → addHelp cmd helpText cs !! k = cs !! k.
Proof.
  intros Hcmd Hdot. unfold addHelp.
  destruct (cs !! cmd); [by rewrite lookup_insert_ne |].
  destruct (cs !! ("." +:+ cmd)); [by rewrite lookup_insert_ne | done].
Qed.

Lemma addHelp_plain (cmd helpText : string) (cs : commands) :
  is_Some (cs !! cmd) →
  addHelp cmd helpText cs !! cmd = Some helpText
  ∧ addHelp cmd helpText cs !! ("." +:+ cmd) = cs !! ("." +:+ cmd).
Proof.
  intros [old Hold]. unfold addHelp. rewrite Hold.
  rewrite lookup_insert_eq. split; [done |].
  apply lookup_insert_ne. clear. intros Heq.
  apply (f_equal String.length) in Heq. simpl in Heq. lia.
Qed.

Lemma addHelp_dotted (cmd helpText : string) (cs : commands) :
  cs !! cmd = None →
  addHelp cmd helpText cs !! cmd = None
  ∧ (is_Some (cs !! ("." +:+ cmd)) →
     addHelp cmd helpText cs !! ("." +:+ cmd) = Some helpText).
Proof.
  intros Hnone. unfold addHelp. rewrite Hnone.
  assert (cmd ≠ "." +:+ cmd) as Hne.
  { intros Heq. apply (f_equal String.length) in Heq. simpl in Heq. lia. }
  destruct (cs !! ("." +:+ cmd)) as [old|] eqn:Hdot.
  - split; [by rewrite lookup_insert_ne |].
    intros _. by rewrite lookup_insert_eq.
  - split; [done |]. by intros [? ?].
Qed.

(** A call sees the commands under its own keyword only. *)
Lemma addHelp_agree (cmd helpText k : string) (cs cs' : commands) :
  cs' !! cmd = cs !! cmd →
  cs' !! ("." +:+ cmd) = cs !! ("." +:+ cmd) →
  k = cmd ∨ k = "." +:+ cmd →
  addHelp cmd helpText cs' !! k = addHelp cmd helpText cs !! k.
Proof.
  intros Hcmd Hdot Hk.
  assert (cmd ≠ "." +:+ cmd) as Hne.
  { intros Heq. apply (f_equal String.length) in Heq. simpl in Heq. lia. }
  unfold addHelp. rewrite Hcmd, Hdot.
  destruct (cs !! cmd) eqn:Hplain.
  - destruct Hk as [->| ->]; [by rewrite !lookup_insert_eq |].
    by rewrite !lookup_insert_ne.
  - destruct (cs !! ("." +:+ cmd)) eqn:Hdotted.
    + destruct Hk as [->| ->]; [| by rewrite !lookup_insert_eq].
      rewrite !lookup_insert_ne by done. congruence.
    + destruct Hk as [->| ->]; congruence.
Qed.

(** Each of the three calls deals with its own keyword. *)
Lemma improve_help_lookup (cmd text k : string) (cs : commands) :
  (cmd, text) ∈ help_texts →
  k = cmd ∨ k = "." +:+ cmd →
  improve_help cs !! k = addHelp cmd text cs !! k.
Proof.
  unfold help_texts, improve_help.
  rewrite !elem_of_cons, elem_of_nil.
  intros [[= -> ->]|[[= -> ->]|[[= -> ->]|[]]]] Hk.
  - rewrite (addHelp_other "help" _ k), (addHelp_other "exit" _ k);
      by destruct Hk as [->| ->].
  - rewrite (addHelp_other "help" _ k) by (by destruct Hk as [->| ->]).
    apply addHelp_agree; [by apply addHelp_other.. | done].
  - apply addHelp_agree; [by rewrite !addHelp_other.. | done].
Qed.

(** X17.  The help texts are improved in place.  The three calls of
    addHelp add no command and remove none, and leave every command but
    [break], [exit] and [help], with or without the dot, as it is.  For
    each of the three keywords: a command that is there under the plain
    keyword gets the new text, and the one under the dotted keyword is
    then left alone; when there is none under the plain keyword, the
    command under the dotted keyword gets the new text, if it is
    there, and none appears under the plain keyword. *)
Theorem help_improved_in_place (cs : commands) :
  dom (improve_help cs) = dom cs
  ∧ (∀ k, k ∉ ["break"; ".break"; "exit"; ".exit"; "help"; ".help"] →
          improve_help cs !! k = cs !! k)
  ∧ (∀ cmd text,
       (cmd, text) ∈ help_texts →
       (is_Some (cs !! cmd) →
        improve_help cs !! cmd = Some text
        ∧ improve_help cs !! ("." +:+ cmd) = cs !! ("." +:+ cmd))
       ∧ (cs !! cmd = None →
          improve_help cs !! cmd = None
          ∧ (is_Some (cs !! ("." +:+ cmd)) →
             improve_help cs !! ("." +:+ cmd) = Some text))).
Proof.
  split; [| split].
  - unfold improve_help. by rewrite !addHelp_dom.
  - unfold improve_help. intros k Hk. rewrite !not_elem_of_cons in Hk.
    destruct Hk as (? & ? & ? & ? & ? & ? & _).
    by rewrite !addHelp_other.
  - intros cmd text Hin.
    rewrite !(improve_help_lookup cmd text) by auto.
    split; [apply addHelp_plain | apply addHelp_dotted].
Qed.

End ReplHelpFacts.

(** ** Further scenarios *)

Module Walkthroughs.
Import Text JS FrameReader Connection Samples Fixtures.

#[local] Existing Instance JSONData.builtins.

(** A stream that fails, or closes, inside the header. *)
Lemma failure_before_header_witness :
  let chunks := ["{" +:+ String DQ "ke"] in
  let later := [hello +:+ nl] in
  let e := ErrorObj "Error" "reset" in
  (read chunks).2 = []
  ∧ (FrameReader.run
       (map Data chunks ++ StreamError e :: map Data later) start).2
    = [CallbackArgs e Undefined]
  ∧ dataSoFar
      (FrameReader.run
         (map Data chunks ++ Close :: map Data later) start).1
    = "{" +:+ String DQ "ke".
Proof.
  intros chunks later e.
  assert ((read chunks).2 = []) as H1 by reflexivity.
  destruct (FramingFacts.failure_before_header chunks later e H1)
    as ((Hf & _) & _ & (_ & _ & Hd)).
  split; [exact H1 |]. split; [exact Hf | exact Hd].
Defined.

(** The header of the samples on two lines, in a chunk whose last byte,
    C3, begins a character that the chunk does not complete. *)
Lemma header_over_several_lines_witness :
  let lines := ["{" +:+ quoted "key"; ":" +:+ quoted "abc" +:+ "}"] in
  let chunk := join lines +:+ nl +:+ "caf"
               +:+ String "195"%char EmptyString in
  let payload := "caf" +:+ Buffer.REPLACEMENT in
  Buffer.toString chunk = join lines +:+ nl +:+ payload
  ∧ lines ≠ []
  ∧ Forall (λ l, no_newline l = true) lines
  ∧ JSON_parse (concat (take 1 lines)) = SyntaxError
  ∧ JSON_parse (concat lines) = Parsed (Obj [("key", Str "abc")])
  ∧ read [chunk]
    = (piping (concat lines) payload,
       [CallbackArgs Null (Obj [("key", Str "abc")])]).
Proof.
  intros lines chunk payload.
  assert (Buffer.toString chunk = join lines +:+ nl +:+ payload) as H0
    by reflexivity.
  assert (lines ≠ []) as H1 by discriminate.
  assert (Forall (λ l, no_newline l = true) lines) as H2
    by (repeat constructor).
  assert (JSON_parse (concat (take 1 lines)) = SyntaxError) as H3
    by reflexivity.
  assert (JSON_parse (concat lines) = Parsed (Obj [("key", Str "abc")]))
    as H4 by reflexivity.
  repeat (split; [assumption |]).
  apply (FramingFacts.header_over_several_lines chunk lines _ payload
           H0 H1 H2); [| exact H4].
  intros k Hk. replace k with 1%nat by (simpl in Hk; lia). exact H3.
Defined.

(** A connection reset inside the header. *)
Lemma failure_before_handshake_witness :
  let evs := [Stream (Data "{")] in
  let e := ErrorObj "Error" "reset" in
  let later := [Stream (Data (hello +:+ nl)); TimerFires] in
  let failed := serve (evs ++ [Stream (StreamError e)]) accepted in
  timeout (serve evs accepted) = true
  ∧ truthy e = true
  ∧ effects failed = [ClearTimeout; ConsoleError e]
  ∧ effects (serve later failed) = effects failed
  ∧ Connection.session (serve later failed) = NoSession.
Proof.
  intros evs e later failed.
  assert (timeout (serve evs accepted) = true) as H1 by reflexivity.
  assert (truthy e = true) as H2 by reflexivity.
  destruct (LifecycleFacts.failure_before_handshake secret evs later e
              H1 H2) as ((Hf & _ & _ & Hl & Hs) & _).
  repeat (split; [assumption |]). exact Hs.
Defined.

(** The timer firing a second time. *)
Lemma deadline_acts_once_witness :
  effects (serve [TimerFires] accepted) ≠ []
  ∧ serve ([TimerFires] ++ [TimerFires]) accepted
    = serve [TimerFires] accepted.
Proof.
  assert (effects (serve [TimerFires] accepted) ≠ []) as H1
    by (vm_compute; discriminate).
  split; [exact H1 |].
  exact (LifecycleFacts.deadline_acts_once secret [TimerFires] H1).
Defined.

(** The framing example, cut inside the header. *)
Lemma handshake_any_segmentation_witness :
  let options := [("key", Str "abc")] in
  let payload := "foo" +:+ nl +:+ "bar" in
  let c := serve (Wire.data_events cut_inside) accepted in
  JSON_parse (Lines.strip_newlines hello) = Parsed (Obj options)
  ∧ Forall (λ p, JSON_parse (Lines.strip_newlines p) = SyntaxError)
      (proper_prefixes hello)
  ∧ strict_eq_string (get "key" options) secret = true
  ∧ concat cut_inside = hello +:+ nl +:+ payload
  ∧ Forall (λ c, Buffer.toString c = c)
      (header_chunks (String.length hello) cut_inside)
  ∧ Connection.session c = Interactive
  ∧ repl_starts (effects c) = [repl_options true options]
  ∧ passthrough (frame c) = payload.
Proof.
  intros options payload c.
  assert (JSON_parse (Lines.strip_newlines hello) = Parsed (Obj options))
    as H1 by reflexivity.
  assert (Forall (λ p, JSON_parse (Lines.strip_newlines p) = SyntaxError)
            (proper_prefixes hello)) as H2.
  { let l := eval vm_compute in (proper_prefixes hello) in
    change (proper_prefixes hello) with l.
    repeat (constructor; [reflexivity |]). constructor. }
  assert (strict_eq_string (get "key" options) secret = true) as H3
    by reflexivity.
  assert (concat cut_inside = hello +:+ nl +:+ payload) as H4
    by reflexivity.
  assert (Forall (λ c, Buffer.toString c = c)
            (header_chunks (String.length hello) cut_inside)) as H5.
  { let l := eval vm_compute in
      (header_chunks (String.length hello) cut_inside) in
    change (header_chunks (String.length hello) cut_inside) with l.
    repeat (constructor; [reflexivity |]). constructor. }
  destruct (LifecycleFacts.handshake_any_segmentation secret hello payload
              options cut_inside H1 H2 H3 H4 H5)
    as (_ & Hs & Hr & _ & Hp).
  repeat (split; [assumption |]). exact Hp.
Defined.

(** Three evaluators of three kinds. *)
Lemma callbacks_accounted_for_witness :
  NoDup (EvalPipeline.submitted mixed_schedule)
  ∧ Completion.fired (EvalPipeline.trace (EvalPipeline.run mixed_schedule))
    = [1; 3; 2]%nat
  ∧ NoDup
      (Completion.fired
         (EvalPipeline.trace (EvalPipeline.run mixed_schedule)))
  ∧ (3 ∈ Completion.fired
           (EvalPipeline.trace
              (EvalPipeline.run (take 1 mixed_schedule))))%nat.
Proof.
  assert (NoDup (EvalPipeline.submitted mixed_schedule)) as H1.
  { apply (bool_decide_unpack _). by vm_compute. }
  split; [exact H1 |]. split; [reflexivity |].
  destruct (CompletionFacts.callbacks_accounted_for mixed_schedule H1)
    as (_ & Hnd & _).
  split; [exact Hnd |].
  apply (bool_decide_unpack _). by vm_compute.
Defined.

(** A session after two remembered lines. *)
Lemma history_written_then_recalled_witness :
  Lines.newline_terminated old_history = true
  ∧ Forall (λ l, no_newline l = true) (HistoryLog.logged typed)
  ∧ History.oldest_to_newest
      (History.initializeHistory
         (HistoryFile.contents
            (HistoryFile.session typed
               (HistoryFile.openSync 3 old_history))) None)
    = ["b"; "c"; "a"].
Proof.
  assert (Lines.newline_terminated old_history = true) as H1
    by reflexivity.
  assert (Forall (λ l, no_newline l = true) (HistoryLog.logged typed))
    as H2 by (repeat constructor).
  repeat (split; [assumption |]).
  etrans;
    [exact (HistoryFileFacts.history_written_then_recalled 3 old_history
              typed H1 H2) |].
  by vm_compute.
Defined.

(** A server starting in a directory with a stale, readable info file. *)
Lemma listen_publishes_witness :
  let info := Discovery.getInfoFile posix_join shell_dir in
  (info ∉ Discovery.pinned stale)
  ∧ (info ∉ Discovery.unwritable stale)
  ∧ ∃ fs', Discovery.listen posix_join usual_umask shell_dir secret 4000
             stale = Some fs'
           ∧ Discovery.owner_only info fs'.
Proof.
  intros info.
  assert (info ∉ Discovery.pinned stale) as H1
    by apply not_elem_of_empty.
  assert (info ∉ Discovery.unwritable stale) as H2
    by apply not_elem_of_empty.
  repeat (split; [assumption |]).
  destruct (DiscoveryFacts.listen_publishes posix_join usual_umask
              shell_dir secret 4000 stale H1 H2)
    as (fs' & Hl & _ & Ho & _).
  exists fs'. split; [exact Hl | exact Ho].
Defined.

(** Two servers, each disabled in turn. *)
Lemma record_stays_private_witness :
  let info := Discovery.getInfoFile posix_join shell_dir in
  (info ∉ Discovery.pinned stale)
  ∧ Discovery.owner_only info
      (Discovery.apply_all posix_join usual_umask shell_dir
         [Discovery.Listen secret 4000; Discovery.Disable;
          Discovery.Listen "abd" 4001; Discovery.Disable] stale).
Proof.
  intros info.
  assert (info ∉ Discovery.pinned stale) as H1
    by apply not_elem_of_empty.
  split; [exact H1 |].
  exact (DiscoveryFacts.record_stays_private posix_join usual_umask
           shell_dir secret 4000
           [Discovery.Disable; Discovery.Listen "abd" 4001;
            Discovery.Disable] stale H1).
Defined.

End Walkthroughs.
